(** * Data2MusicTool: the metric pipeline of [metrics.py]

    A shallow embedding of the metric extractors ([brightness], [contrast],
    [histogram], [amplitude]), of the aggregator ([joint]), of the change
    point detector ([change_points]) and of the event serializer ([to_json])
    together with the properties the specification states about them.

    Conventions.
    - Python integers are [Z]; list indices and loop counters that the code
      only ever counts upwards from zero are [nat] or [Z] as noted.
    - A Python exception that leaves the function is a value [Raise e].
    - NumPy fixed-width integers are [Z] with the wrap-around written out.
    - The floats of [to_json] and [edit_playlist] are rationals that every
      operation rounds to binary64.  The floats of [amplitude] and [joint]
      are exact rationals, with constructors for the infinities and NaN that
      a division by zero produces. *)

From Stdlib Require Import String ZArith QArith Qcanon List Lia Bool Arith.
From Stdlib Require Import Sorting.Sorted.
From Stdlib.Strings Require Byte.
From Stdlib Require SpecFloat.
Import ListNotations.

Open Scope Z_scope.

(** ** Python exceptions and results *)

Inductive exn : Type :=
| IndexError
| ValueError
| AttributeError
| KeyError
| ZeroDivisionError.

Inductive result (A : Type) : Type :=
| Ok (a : A)
| Raise (e : exn).

Arguments Ok {A} a.
Arguments Raise {A} e.

Definition bind {A B : Type} (r : result A) (k : A -> result B) : result B :=
  match r with
  | Ok a => k a
  | Raise e => Raise e
  end.

Notation "x <- r ;; k" := (bind r (fun x => k))
  (at level 61, r at next level, right associativity).

Definition returns {A : Type} (r : result A) : Prop := exists a, r = Ok a.
Definition raises {A : Type} (r : result A) : Prop := exists e, r = Raise e.

(** ** Small list utilities shared by the components *)

(** Sum of a list of integers, as [np.sum] and [sum] compute it before any
    reduction to a fixed width. *)
Definition zsum (l : list Z) : Z := fold_right Z.add 0 l.

(** Python's [l[-1]] on a non-empty list. *)
Definition last_Z (l : list Z) : Z := last l 0.

(** ** NumPy scalars *)

(** A byte of a frame or sample buffer, [np.uint8]. *)
Definition uint8 : Type := Byte.byte.

Definition u8 (b : uint8) : Z := Z.of_N (Byte.to_N b).

(** Reduction of an integer to an unsigned and to a signed (two's
    complement) type of [w] bits. *)
Definition wrap_unsigned (w : Z) (z : Z) : Z := z mod 2 ^ w.
Definition wrap_signed (w : Z) (z : Z) : Z := (z + 2 ^ (w - 1)) mod 2 ^ w - 2 ^ (w - 1).

Definition wrap_uint16 : Z -> Z := wrap_unsigned 16.
Definition wrap_uint32 : Z -> Z := wrap_unsigned 32.
Definition wrap_int16 : Z -> Z := wrap_signed 16.
Definition wrap_int32 : Z -> Z := wrap_signed 32.

(** A [np.float64], idealised: a finite value is an exact rational, and the
    values a division by zero produces are kept apart. *)
Inductive float : Type :=
| Fin (q : Qc)
| PosInf
| NegInf
| NaN.

Definition of_Z (z : Z) : Qc := Q2Qc (inject_Z z).

(** ** Binary64 arithmetic *)

(** The result of an operation on [float] values of Python is the binary64
    number nearest to the exact result, ties to even.  The values are
    rationals here and the rounding is written out. *)

(** The integer nearest to [n / d] for a positive [d], ties to even. *)
Definition nearest_even (n d : Z) : Z :=
  let f := n / d in
  let r := n mod d in
  if 2 * r <? d then f
  else if d <? 2 * r then f + 1
  else if Z.even f then f else f + 1.

(** [floor (log2 (n / d))] for positive [n] and [d]. *)
Definition log2_floor (n d : Z) : Z :=
  let g := Z.log2 n - Z.log2 d in
  if d * 2 ^ Z.max 0 g <=? n * 2 ^ Z.max 0 (- g) then g else g - 1.

(** The binary64 number nearest to [n / d] for positive [n] and [d]: a
    multiple of [2 ^ e] with a significand of 53 bits, or of [2 ^ (-1074)]
    in the subnormal range.  A result of magnitude [2 ^ 1024] or more, which
    binary64 replaces by an infinity, is outside this definition: the sum of
    a finite time stamp and 1000 never reaches it, and playlists with start
    times or durations of that magnitude are not considered. *)
Definition round64_pos (n d : Z) : Q :=
  let e := Z.max (log2_floor n d - 52) (-1074) in
  let m := nearest_even (n * 2 ^ Z.max 0 (- e)) (d * 2 ^ Z.max 0 e) in
  (m * 2 ^ Z.max 0 e) # Z.to_pos (2 ^ Z.max 0 (- e)).

Definition round64 (q : Q) : Q :=
  match Qnum q with
  | Z0 => 0%Q
  | Zpos _ => round64_pos (Qnum q) (Zpos (Qden q))
  | Zneg _ => Qopp (round64_pos (- Qnum q) (Zpos (Qden q)))
  end.

Definition round64c (x : Qc) : Qc := Q2Qc (round64 x).

(** The value of a finite binary float of the reference model
    [SpecFloat]. *)
Definition SF_value (x : SpecFloat.spec_float) : option Q :=
  match x with
  | SpecFloat.S754_zero _ => Some 0%Q
  | SpecFloat.S754_finite s m e =>
      let z := if s then Z.neg m else Z.pos m in
      Some (if 0 <=? e then (z * 2 ^ e) # 1 else z # Z.to_pos (2 ^ (- e)))
  | _ => None
  end.

(** ** Change point detector ([change_points]) *)

Module ChangePoints.

Section Detector.

(** The element type of the metric sequence and the test
    [data[i] >= cutoff].  The structural properties of the detector do not
    depend on how the comparison with the cut-off is decided. *)
Variable A : Type.
Variable reaches_cutoff : A -> bool.

Definition shot_length : Z := 30.

(** The [while i < len(data)] loop.  [rest] holds [data[i:]], so its head
    is [data[i]]; the state is [(curr_cp, cp)]. *)
Fixpoint scan (rest : list A) (i curr_cp : Z) (cp : list Z) : list Z :=
  match rest with
  | [] => cp
  | x :: rest' =>
      if reaches_cutoff x then
        let cp' := if shot_length <? i - curr_cp then cp ++ [curr_cp] else cp in
        scan rest' (i + 1) i cp'
      else scan rest' (i + 1) curr_cp cp
  end.

(** The two fix-ups after the loop.  [cp[0]] raises [IndexError] when no
    change point was recorded. *)
Definition bound_ends (len : Z) (cp : list Z) : result (list Z) :=
  match cp with
  | [] => Raise IndexError
  | c0 :: _ =>
      let cp1 := if negb (c0 =? 0) then [0] ++ cp else cp in
      let cp2 := if negb (last_Z cp1 =? len - 1) then cp1 ++ [len - 1] else cp1 in
      Ok cp2
  end.

(** [max(data)] raises [ValueError] on an empty sequence, before anything
    else runs. *)
Definition change_points_with (data : list A) : result (list Z) :=
  match data with
  | [] => Raise ValueError
  | _ :: tl => bound_ends (Z.of_nat (length data)) (scan tl 1 0 [])
  end.

End Detector.

Arguments scan {A} reaches_cutoff rest i curr_cp cp.
Arguments change_points_with {A} reaches_cutoff data.

(** [max(data)] for a non-empty list of integers. *)
Definition list_max_Z (data : list Z) : Z :=
  match data with
  | [] => 0
  | x :: tl => fold_left Z.max tl x
  end.

(** The detector on integer metric data.  [cutoff = max(data) * 0.3] and the
    test [data[i] >= cutoff] are decided in exact arithmetic:
    [x >= 3/10 * m] iff [3 * m <= 10 * x]. *)
Definition change_points (data : list Z) : result (list Z) :=
  change_points_with (fun x => 3 * list_max_Z data <=? 10 * x) data.

(** The sequence of the specification's example:
    [[0]*29 + [100] + [0]*29 + [100]]. *)
Definition two_spikes : list Z :=
  repeat 0 29 ++ [100] ++ repeat 0 29 ++ [100].

(** [b] lies more than [shot_length] indices after [a]. *)
Definition apart (a b : Z) : Prop := a + shot_length < b.

(** [c] is an index at which the data reaches the cut-off. *)
Definition crossing {A : Type} (reaches_cutoff : A -> bool) (data : list A)
  (c : Z) : Prop :=
  exists x, nth_error data (Z.to_nat c) = Some x /\ reaches_cutoff x = true.

End ChangePoints.

(** ** Event serializer ([to_json]) *)

Module Serializer.

(** [int(x)] on a float: truncation toward zero. *)
Definition py_int (q : Q) : Z := Z.quot (Qnum q) (Zpos (Qden q)).

(** The fixed annotation [{"system": "track1"}]. *)
Definition track_parameters : list (string * string) :=
  [("system"%string, "track1"%string)].

Section Events.

(** The type of a metric value ([each] in the source). *)
Variable V : Type.

(** One line of the output file: the copy of [di] that the inner loop appends
    to [li2].  Every iteration assigns all four keys before it copies the
    dictionary, so a copy is determined by the four values of that
    iteration. *)
Record MetricEvent : Type := mkEvent {
  timestamp : Z;
  feature : string;
  value : V;
  parameters : list (string * string)
}.

(** [for each in lists[i]]: the state is [(time_stamp, li2)].  [features[i]]
    raises [IndexError] when there is no label for the sequence.
    [time_stamp] is a float: [time_stamp += 1000] rounds the sum to
    binary64. *)
Fixpoint group_loop (features : list string) (i : nat) (seq : list V)
  (time_stamp : Q) (li2 : list MetricEvent) : result (Q * list MetricEvent) :=
  match seq with
  | [] => Ok (time_stamp, li2)
  | each :: rest =>
      let ts := py_int time_stamp in
      let time_stamp' := round64 (time_stamp + 1000) in
      match nth_error features i with
      | None => Raise IndexError
      | Some f =>
          let di := mkEvent ts f each track_parameters in
          group_loop features i rest time_stamp' (li2 ++ [di])
      end
  end.

(** [for i in range(0, len(lists))]: [rest] holds [lists[i:]].  After each
    group [time_stamp] is set back to [copy]. *)
Fixpoint groups_loop (features : list string) (copy : Q) (i : nat)
  (rest : list (list V)) (time_stamp : Q) (li2 : list MetricEvent)
  : result (list MetricEvent) :=
  match rest with
  | [] => Ok li2
  | seq :: rest' =>
      st <- group_loop features i seq time_stamp li2 ;;
      groups_loop features copy (S i) rest' copy (snd st)
  end.

(** [to_json lists features file_name], given the reading [now] of
    [time.time() * 1000], a binary64 value.  The definition covers lines
    16 to 40: [Ok li2] says that the loops have built the records [li2],
    which lines 41 to 46 then write to the file, one per line and in this
    order.  Opening the file and encoding the records belong to the
    environment and have no counterpart here, so [Ok] does not say that the
    write succeeds. *)
Definition to_json (now : Q) (lists : list (list V)) (features : list string)
  : result (list MetricEvent) :=
  let time_stamp := now in
  let copy := time_stamp in
  groups_loop features copy 0 lists time_stamp [].

(** Position of the first record of sequence [i] in the output. *)
Definition group_offset (lists : list (list V)) (i : nat) : nat :=
  length (concat (firstn i lists)).

End Events.

Arguments mkEvent {V} timestamp feature value parameters.
Arguments timestamp {V} m.
Arguments feature {V} m.
Arguments value {V} m.
Arguments parameters {V} m.
Arguments group_loop {V} features i seq time_stamp li2.
Arguments groups_loop {V} features copy i rest time_stamp li2.
Arguments to_json {V} now lists features.
Arguments group_offset {V} lists i.

(** Every sequence of [rest] that has an element has a label, [rest] being
    [lists[i:]]. *)
Definition labelled_from {V : Type} (features : list string) (i : nat)
  (rest : list (list V)) : Prop :=
  forall k s, nth_error rest k = Some s -> s <> [] ->
              (i + k < length features)%nat.

(** The input of the specification's round-trip example. *)
Definition example_lists : list (list Z) := [[1; 2]; [3; 4]].
Definition example_labels : list string := ["a"%string; "b"%string].

(** Between [2 ^ 40] and [2 ^ 41] milliseconds after the epoch, from
    November 2004 to September 2039, a binary64 value is a multiple of
    [2 ^ (-12)]: the clock reading [m / 4096] with a significand [m] of 53
    bits.  [example_clock] reads 1700000000123.456 ms to that precision, and
    [boundary_clock] lies 999.5 ms before [2 ^ 41]. *)
Definition clock (m : Z) : Q := m # 4096.
Definition example_clock : Z := 6963200000505676.
Definition boundary_clock : Z := 9007199252488191.

End Serializer.

(** ** Frame sources and the video extractors *)

Module Video.

(** A pixel: its three channel values in array order. *)
Definition Pixel : Type := (uint8 * uint8 * uint8)%type.

Definition channels (p : Pixel) : list Z :=
  let '(c0, c1, c2) := p in [u8 c0; u8 c1; u8 c2].

(** A decoded frame is an array of shape [(height, width, 3)]: [f r c] is the
    pixel in row [r] and column [c]. *)
Definition Frame : Type := nat -> nat -> Pixel.

(** [np.bincount(x, minlength=n)] for non-negative [x]: one counter per value
    from [0] to [max(max(x) + 1, n) - 1]. *)
Definition bins_needed (x : list Z) : nat :=
  match x with
  | [] => 0%nat
  | x0 :: tl => Z.to_nat (fold_left Z.max tl x0 + 1)
  end.

Definition bincount (x : list Z) (minlength : nat) : list Z :=
  map (fun b => Z.of_nat (count_occ Z.eq_dec x (Z.of_nat b)))
      (seq 0 (Nat.max minlength (bins_needed x))).

Section Capture.

(** The geometry of the frames a capture delivers. *)
Variables height width : nat.

(** The pixels of a frame in row-major order, [frame.reshape([h * w, 3])]. *)
Definition pixels (f : Frame) : list Pixel :=
  flat_map (fun r => map (f r) (seq 0 width)) (seq 0 height).

(** Every sample of the frame buffer, in memory order. *)
Definition samples (f : Frame) : list Z := flat_map channels (pixels f).

(** A capture: the declared [CAP_PROP_FRAME_COUNT] and the results of the
    successive calls of [video.read()]; [None] is a frame that failed to
    decode.  Past the end of the stream every read fails.  The count of a
    video file is a natural number; the loops that run [count - 1] times
    use truncated subtraction, as [range(0, count - 1)] is empty for a
    count of zero. *)
Record FrameSource : Type := mkSource {
  frame_count : nat;
  stream : list (option Frame)
}.

Definition read (s : list (option Frame)) : option Frame * list (option Frame) :=
  match s with
  | [] => (None, [])
  | fr :: s' => (fr, s')
  end.

(** The result of the [k]-th call of [read] on a fresh capture. *)
Definition read_at (v : FrameSource) (k : nat) : option Frame :=
  nth k (stream v) None.

(** *** [brightness] *)

(** [np.sum(frame, dtype=np.uint32)]: the accumulator is 32 bits wide.  The
    frame is an array of [uint8], for which the sum cannot raise
    [TypeError], so the handler in the source is never entered. *)
Definition frame_total (f : Frame) : Z := wrap_uint32 (zsum (samples f)).

(** The value [brightness] appends for one read. *)
Definition brightness_entry (fr : option Frame) : Z :=
  match fr with
  | None => -1
  | Some f => frame_total f
  end.

Fixpoint brightness_loop (n : nat) (s : list (option Frame)) (li : list Z)
  : list Z :=
  match n with
  | O => li
  | S n' =>
      let '(frame, s') := read s in
      match frame with
      | None => brightness_loop n' s' (li ++ [-1])
      | Some f => brightness_loop n' s' (li ++ [frame_total f])
      end
  end.

Definition brightness (video : FrameSource) : list Z :=
  brightness_loop (frame_count video) (stream video) [].

(** *** [contrast] *)

(** [np.sum(np.absolute(frame2 - frame), dtype=np.uint32)] on the two frames
    widened to [np.int16]. *)
Definition frame_distance (frame2 frame : Frame) : Z :=
  wrap_uint32
    (zsum (map (fun ab => wrap_int16 (Z.abs (wrap_int16 (fst ab - snd ab))))
               (combine (samples frame2) (samples frame)))).

(** The value [contrast] appends for one read, given the reference frame. *)
Definition contrast_entry (frame : Frame) (fr : option Frame) : Z :=
  match fr with
  | None => -1
  | Some f2 => frame_distance f2 frame
  end.

(** The loop of [contrast]; the state is [(frame, li)].  A failed read
    leaves the loop body at [continue], before [frame = frame2].  As in
    [brightness], the handler of [TypeError] is never entered for frames
    that are arrays of [uint8]. *)
Fixpoint contrast_loop (n : nat) (s : list (option Frame)) (frame : Frame)
  (li : list Z) : list Z :=
  match n with
  | O => li
  | S n' =>
      let '(frame2, s') := read s in
      match frame2 with
      | None => contrast_loop n' s' frame (li ++ [-1])
      | Some f2 => contrast_loop n' s' f2 (li ++ [frame_distance f2 frame])
      end
  end.

(** The first frame is read before the loop and converted without a test:
    [None.astype] raises [AttributeError]. *)
Definition contrast (video : FrameSource) : result (list Z) :=
  let '(frame, s) := read (stream video) in
  match frame with
  | None => Raise AttributeError
  | Some f => Ok (contrast_loop (frame_count video - 1) s f [])
  end.

(** *** [histogram] *)

Definition BINLEN : Z := 8.

(** [frame.astype(np.uint16) // (256 // BINLEN)] on one sample. *)
Definition quantize (c : uint8) : Z := (u8 c mod 2 ^ 16) / (256 / BINLEN).

(** The dot product of a quantized pixel with
    [[BINLEN * BINLEN, BINLEN, 1]]. *)
Definition bin_index (p : Pixel) : Z :=
  let '(c0, c1, c2) := p in
  quantize c0 * (BINLEN * BINLEN) + quantize c1 * BINLEN + quantize c2 * 1.

(** The occupancy vector [tmp] of a frame. *)
Definition frame_bins (f : Frame) : list Z :=
  bincount (map bin_index (pixels f)) (Z.to_nat (BINLEN ^ 3)).

(** [np.sum(np.absolute(tmp - counts))]. *)
Definition bins_distance (tmp counts : list Z) : Z :=
  zsum (map (fun ab => Z.abs (fst ab - snd ab)) (combine tmp counts)).

(** The loop of [histogram]; the state is [(counts, li)]. *)
Fixpoint histogram_loop (n : nat) (s : list (option Frame)) (counts : list Z)
  (li : list Z) : list Z :=
  match n with
  | O => li
  | S n' =>
      let '(frame, s') := read s in
      match frame with
      | None => histogram_loop n' s' counts (li ++ [-1])
      | Some f =>
          let tmp := frame_bins f in
          histogram_loop n' s' tmp (li ++ [bins_distance tmp counts])
      end
  end.

Definition histogram (video : FrameSource) : list Z :=
  histogram_loop (frame_count video - 1) (stream video)
    (repeat 0 (Z.to_nat (BINLEN ^ 3))) [].

(** The last frame that decoded among the first [k + 1] reads, as the
    specification describes the reference of the comparison: [first] when
    none of the reads [1 .. k] decoded. *)
Fixpoint last_decoded (first : Frame) (reads : list (option Frame)) : Frame :=
  match reads with
  | [] => first
  | None :: reads' => last_decoded first reads'
  | Some f :: reads' => last_decoded f reads'
  end.

(** The occupancy counts that [histogram] holds after the given reads,
    starting from [counts]: those of the last frame that decoded. *)
Fixpoint retained_counts (counts : list Z) (reads : list (option Frame))
  : list Z :=
  match reads with
  | [] => counts
  | None :: reads' => retained_counts counts reads'
  | Some f :: reads' => retained_counts (frame_bins f) reads'
  end.

(** The value [histogram] appends for one read, given the retained
    counts. *)
Definition histogram_entry (counts : list Z) (fr : option Frame) : Z :=
  match fr with
  | None => -1
  | Some f => bins_distance (frame_bins f) counts
  end.

(** The sum of the absolute differences of the samples of two frames, in
    unbounded integers. *)
Definition sample_differences (frame2 frame : Frame) : Z :=
  zsum (map (fun ab => Z.abs (fst ab - snd ab))
            (combine (samples frame2) (samples frame))).

End Capture.

(** A white frame, and a capture of ultra-high-definition geometry
    (3840 x 2160) that delivers it. *)
Definition white_frame : Frame := fun _ _ => (Byte.xff, Byte.xff, Byte.xff).
Definition uhd_height : nat := 2160.
Definition uhd_width : nat := 3840.
Definition white_video : FrameSource := mkSource 1 [Some white_frame].

(** A capture of 2 x 2 frames: a dark frame, a failed read, a white frame;
    it declares four frames and delivers three reads. *)
Definition dark_frame : Frame := fun _ _ => (Byte.x01, Byte.x02, Byte.x03).
Definition tiny_video : FrameSource :=
  mkSource 4 [Some dark_frame; None; Some white_frame].

Arguments frame_count v : rename.
Arguments stream v : rename.

End Video.

(** ** Amplitude extractor ([amplitude]) *)

Module Audio.

(** An opened wave file: the header fields and the bytes of the data chunk
    that have not been read yet. *)
Record AudioSource : Type := mkAudio {
  nchannels : nat;
  sampwidth : nat;
  nframes : nat;
  pcm : list uint8
}.

(** [w.readframes(n)]: the bytes of the next [n] audio frames, fewer at the
    end of the data, and the bytes that remain. *)
Definition readframes (cn size n : nat) (data : list uint8)
  : list uint8 * list uint8 :=
  let k := (n * (cn * size))%nat in (firstn k data, skipn k data).

(** The formats of the table [{1: "B", 2: "h", 4: "i"}], little-endian. *)
Inductive sample_format : Type := fmt_B | fmt_h | fmt_i.

Definition format_of (size : nat) : result sample_format :=
  match size with
  | 1%nat => Ok fmt_B
  | 2%nat => Ok fmt_h
  | 4%nat => Ok fmt_i
  | _ => Raise KeyError
  end.

Definition itemsize (fmt : sample_format) : nat :=
  match fmt with
  | fmt_B => 1%nat
  | fmt_h => 2%nat
  | fmt_i => 4%nat
  end.

(** The unsigned value of a little-endian group of bytes. *)
Definition le_value (bs : list uint8) : Z :=
  fold_right (fun b acc => u8 b + 256 * acc) 0 bs.

Definition decode_item (fmt : sample_format) (bs : list uint8) : Z :=
  match fmt with
  | fmt_B => le_value bs
  | fmt_h => wrap_int16 (le_value bs)
  | fmt_i => wrap_int32 (le_value bs)
  end.

(** Cut a buffer into groups of [k] bytes; [fuel] bounds the number of
    groups and is the length of the buffer. *)
Fixpoint group_by (k fuel : nat) (l : list uint8) : list (list uint8) :=
  match fuel with
  | O => []
  | S fuel' =>
      match l with
      | [] => []
      | _ :: _ => firstn k l :: group_by k fuel' (skipn k l)
      end
  end.

(** [np.frombuffer(chunk, dtype=fmt)]: a buffer that is not a whole number
    of items raises [ValueError]. *)
Definition frombuffer (fmt : sample_format) (chunk : list uint8)
  : result (list Z) :=
  if (length chunk mod itemsize fmt =? 0)%nat
  then Ok (map (decode_item fmt) (group_by (itemsize fmt) (length chunk) chunk))
  else Raise ValueError.

(** [tmp.astype(np.uint16) - 128]: the subtraction is done in [np.uint16]. *)
Definition recentre (x : Z) : Z := wrap_uint16 (wrap_uint16 x - 128).

(** [np.absolute(tmp, dtype=np.int32)] on one element. *)
Definition absolute_int32 (x : Z) : Z := wrap_int32 (Z.abs (wrap_int32 x)).

(** [np.average]: the mean of an empty array is NaN. *)
Definition average (l : list Z) : float :=
  match l with
  | [] => NaN
  | _ :: _ => Fin (of_Z (zsum l) / of_Z (Z.of_nat (length l)))%Qc
  end.

(** Nearest integer, ties to even. *)
Definition round_half_even (q : Q) : Z :=
  let n := Qnum q in
  let d := Zpos (Qden q) in
  let f := n / d in
  let h := (2 * n) / d in
  if ((2 * n) mod d =? 0) && Z.odd h then (if Z.even f then f else f + 1)
  else if h - 2 * f =? 1 then f + 1 else f.

(** [round(x, 3)]. *)
Definition round3 (x : float) : float :=
  match x with
  | Fin q => Fin (Q2Qc (round_half_even (q * 1000)%Q # 1000))
  | other => other
  end.

(** The value appended for one chunk. *)
Definition chunk_value (size : nat) (tmp : list Z) : float :=
  let tmp' := if (size =? 1)%nat then map recentre tmp else tmp in
  round3 (average (map absolute_int32 tmp')).

(** The loop of [amplitude]; the state is the unread data and [li]. *)
Fixpoint amplitude_loop (n : nat) (cn size spf : nat) (fmt : sample_format)
  (data : list uint8) (li : list float) : result (list float) :=
  match n with
  | O => Ok li
  | S n' =>
      let '(chunk, data') := readframes cn size spf data in
      tmp <- frombuffer fmt chunk ;;
      amplitude_loop n' cn size spf fmt data' (li ++ [chunk_value size tmp])
  end.

(** [amplitude video audio_name], given the frame count of the video and the
    opened wave file.  [samples // frames] raises [ZeroDivisionError] for a
    video without frames. *)
Definition amplitude (frames : nat) (w : AudioSource) : result (list float) :=
  let cn := nchannels w in
  let size := sampwidth w in
  let samples := nframes w in
  if (frames =? 0)%nat then Raise ZeroDivisionError
  else
    let spf := (samples / frames)%nat in
    fmt <- format_of size ;;
    amplitude_loop frames cn size spf fmt (pcm w) [].

(** What [amplitude] makes of a sample byte of 1-byte audio. *)
Definition byte_magnitude (b : uint8) : Z :=
  if u8 b <? 128 then u8 b + 65408 else u8 b - 128.

(** Four frames of 8-bit mono audio. *)
Definition four_samples : AudioSource :=
  mkAudio 1 1 4 [Byte.x80; Byte.x90; Byte.xa0; Byte.xb0].

(** Two frames of 8-bit mono audio at the lowest sample value, [b = 0]. *)
Definition low_audio : AudioSource := mkAudio 1 1 2 [Byte.x00; Byte.x00].

End Audio.

(** ** Aggregator ([joint]) *)

Module Joint.

(** Maximum of two finite values. *)
Definition Qcmax (a b : Qc) : Qc :=
  match (a ?= b)%Qc with
  | Lt => b
  | _ => a
  end.

(** [np.max(temp)]: an empty array raises [ValueError]. *)
Definition np_max (temp : list Qc) : result Qc :=
  match temp with
  | [] => Raise ValueError
  | x :: tl => Ok (fold_left Qcmax tl x)
  end.

(** Division and addition of [np.float64] values. *)
Definition fdiv (x m : Qc) : float :=
  match (m ?= 0)%Qc with
  | Eq =>
      match (x ?= 0)%Qc with
      | Eq => NaN
      | Gt => PosInf
      | Lt => NegInf
      end
  | _ => Fin (x / m)%Qc
  end.

Definition fadd (a b : float) : float :=
  match a, b with
  | NaN, _ | _, NaN => NaN
  | PosInf, NegInf | NegInf, PosInf => NaN
  | PosInf, _ | _, PosInf => PosInf
  | NegInf, _ | _, NegInf => NegInf
  | Fin x, Fin y => Fin (x + y)%Qc
  end.

(** [temp.resize(result.shape)] for a shorter [temp]: filled with zeros. *)
Definition resize (base : nat) (temp : list Qc) : list Qc :=
  temp ++ repeat (of_Z 0) (base - length temp).

(** [result += operand]: the operand is added elementwise when the shapes
    agree, a one-element operand is broadcast, and any other shape raises
    [ValueError]. *)
Definition iadd (res operand : list float) : result (list float) :=
  if (length operand =? length res)%nat then
    Ok (map (fun ab => fadd (fst ab) (snd ab)) (combine res operand))
  else
    match operand with
    | [x] => Ok (map (fun r => fadd r x) res)
    | _ => Raise ValueError
    end.

(** The body of [for d in data]. *)
Definition joint_step (base : nat) (res : list float) (d : list Qc)
  : result (list float) :=
  let temp := if (length d <? base)%nat then resize base d else d in
  m <- np_max temp ;;
  iadd res (map (fun x => fdiv x m) temp).

Fixpoint joint_loop (base : nat) (data : list (list Qc)) (res : list float)
  : result (list float) :=
  match data with
  | [] => Ok res
  | d :: data' =>
      res' <- joint_step base res d ;;
      joint_loop base data' res'
  end.

(** [joint data]; [data[0]] raises [IndexError] on an empty list. *)
Definition joint (data : list (list Qc)) : result (list float) :=
  match data with
  | [] => Raise IndexError
  | d0 :: _ =>
      let res := repeat (Fin (of_Z 0)) (length d0) in
      let base := length d0 in
      joint_loop base data res
  end.

(** An input zero-padded to [base], as the specification words it. *)
Definition padded (base : nat) (d : list Qc) : list Qc :=
  d ++ repeat (of_Z 0) (base - length d).

(** Element [i] of the rescaled form of one input, as the specification
    words it: the padded input divided by its maximum. *)
Definition rescaled (base : nat) (d : list Qc) (i : nat) : float :=
  match padded base d with
  | [] => NaN
  | x :: tl => fdiv (nth i (padded base d) (of_Z 0)) (fold_left Qcmax tl x)
  end.

(** Two inputs: a one-element sequence followed by a longer one, and an
    input whose first sequence is empty. *)
Definition short_then_long : list (list Qc) := [[of_Z 1]; [of_Z 1; of_Z 2]].
Definition empty_first : list (list Qc) := [[]].
Definition ramp : list Qc := [of_Z 1; of_Z 2; of_Z 4].

End Joint.

(** ** The metric part of [process] *)

Module Pipeline.

(** A value of a metric list as [to_json] receives it: an integer of
    [brightness], [histogram] or [contrast] (the integral floats that
    [histogram] produces included), or a float of [amplitude] or
    [joint]. *)
Inductive metric_value : Type :=
| IntValue (z : Z)
| FloatValue (x : float).

(** [np.array(d, dtype=np.float64)] on a list of integers. *)
Definition as_float64 (li : list Z) : list Qc := map of_Z li.

Definition labels : list string :=
  ["brightness"; "histogram"; "amplitude"; "contrast"; "joint"]%string.

Section Process.

Variables height width : nat.

(** [process path spath True] from the first extractor to the call of
    [to_json]: every extractor runs on a capture opened afresh on the same
    file, so on the same [video].  The duration that [process] returns
    afterwards is read from the capture that [contrast] has released and is
    not part of this definition. *)
Definition process_metrics (now : Q) (video : Video.FrameSource)
  (wav : Audio.AudioSource)
  : result (list (Serializer.MetricEvent metric_value)) :=
  let histogram_list := Video.histogram height width video in
  amplitude_list <- Audio.amplitude (Video.frame_count video) wav ;;
  let brlist := Video.brightness height width video in
  clist <- Video.contrast height width video ;;
  jlist <- Joint.joint [as_float64 brlist; as_float64 histogram_list;
                        as_float64 clist] ;;
  let joint_lists :=
    [map IntValue brlist; map IntValue histogram_list;
     map FloatValue amplitude_list; map IntValue clist;
     map FloatValue jlist] in
  Serializer.to_json now joint_lists labels.

End Process.

End Pipeline.

(** ** Playlist variation ([edit_playlist]) *)

Module Playlist.

(** The keys of a note of [playData] that [edit_playlist] reads or writes.
    The duration may be JSON [null]; the other keys of a note are not
    touched. *)
Record Note : Type := mkNote {
  absoluteDuration : option Qc;
  c : Z;
  t : Qc
}.

(** [not x] on a duration: [null] and zero are false values. *)
Definition falsy (d : option Qc) : bool :=
  match d with
  | None => true
  | Some q => if Qc_eq_dec q 0 then true else false
  end.

(** The float literals [0.2] and [0.3]. *)
Definition one_fifth : Qc := round64c (Q2Qc (2 # 10)).
Definition three_tenths : Qc := round64c (Q2Qc (3 # 10)).

Section Variation.

(** The successive results of [random.random()]. *)
Variable random : nat -> Qc.

(** The duration of a note after the first statement of the loop body. *)
Definition fixed_duration (n : Note) : Qc :=
  match absoluteDuration n with
  | None => Q2Qc 1
  | Some q => if falsy (Some q) then Q2Qc 1 else q
  end.

(** The body of the loop on one note; [k] counts the random numbers drawn
    so far.  The shift is computed in floats: the duration and the start
    time are converted to binary64 and every operation rounds its result. *)
Definition edit_note (n : Note) (k : nat) : Note * nat :=
  let n1 := mkNote (Some (fixed_duration n)) (c n) (t n) in
  if (c n =? 2) || (c n =? 4) then
    let factor := round64c (one_fifth + round64c (random k * three_tenths)) in
    let shift := round64c (round64c (fixed_duration n) * factor) in
    (mkNote (absoluteDuration n1) (c n1) (round64c (round64c (t n1) + shift)),
     S k)
  else (n1, k).

(** [for i in range(1, len(j["playData"]))]: [rest] holds the notes from
    index [i] on. *)
Fixpoint edit_loop (rest : list Note) (k : nat) : list Note :=
  match rest with
  | [] => []
  | n :: rest' =>
      let '(n', k') := edit_note n k in
      n' :: edit_loop rest' k'
  end.

(** [edit_playlist] on the notes of [j["playData"]]: reading the duration
    of the first note raises [IndexError] on an empty list. *)
Definition edit_playlist (playData : list Note) : result (list Note) :=
  match playData with
  | [] => Raise IndexError
  | first :: rest => Ok (first :: edit_loop rest 0)
  end.

End Variation.

End Playlist.

(** * Properties *)

(** ** Results and sums *)

Lemma returns_not_raises {A : Type} (r : result A) : returns r -> ~ raises r.
Proof. intros [a ->] [e He]; discriminate. Qed.

Lemma zsum_cons (x : Z) (l : list Z) : zsum (x :: l) = x + zsum l.
Proof. reflexivity. Qed.

Lemma zsum_app (l1 l2 : list Z) : zsum (l1 ++ l2) = zsum l1 + zsum l2.
Proof.
  induction l1 as [|x l1 IH]; [reflexivity|].
  cbn [app]. rewrite !zsum_cons, IH. lia.
Qed.

Lemma zsum_repeat (x : Z) (n : nat) : zsum (repeat x n) = x * Z.of_nat n.
Proof.
  induction n as [|n IH]; [cbn; lia|].
  cbn [repeat]. rewrite zsum_cons, IH. lia.
Qed.

Lemma zsum_nonneg (l : list Z) : Forall (fun x => 0 <= x) l -> 0 <= zsum l.
Proof. induction 1; [cbn; lia | rewrite zsum_cons; lia]. Qed.

Lemma zsum_bounded (b : Z) (l : list Z) :
  Forall (fun x => x <= b) l -> zsum l <= b * Z.of_nat (length l).
Proof.
  induction 1 as [|x l Hx _ IH]; [cbn; lia|].
  rewrite zsum_cons. cbn [length]. lia.
Qed.

(** ** Change point detector *)

Section ChangePointFacts.

Import ChangePoints.

Variable A : Type.
Variable reaches_cutoff : A -> bool.

Lemma sorted_snoc (l : list Z) (x : Z) :
  StronglySorted Z.lt l -> Forall (fun c => c < x) l ->
  StronglySorted Z.lt (l ++ [x]).
Proof.
  induction 1 as [|c l Hs IH Hc]; intros Hx; cbn.
  - repeat constructor.
  - inversion Hx; subst. constructor; [auto|].
    apply Forall_app; split; [assumption | repeat constructor; assumption].
Qed.

(** The loop keeps the recorded change points strictly ascending and below
    the current marker, which in turn stays below the index being read. *)
Lemma scan_invariant (rest : list A) :
  forall i curr_cp cp,
    0 <= curr_cp < i ->
    StronglySorted Z.lt cp ->
    Forall (fun c => 0 <= c < curr_cp) cp ->
    StronglySorted Z.lt (scan reaches_cutoff rest i curr_cp cp) /\
    Forall (fun c => 0 <= c < i + Z.of_nat (length rest) - 1)
           (scan reaches_cutoff rest i curr_cp cp).
Proof.
  induction rest as [|x rest IH]; intros i curr_cp cp Hcur Hs Hb; cbn [scan].
  - split; [assumption|].
    eapply Forall_impl; [|exact Hb]. cbn; intros; lia.
  - replace (i + Z.of_nat (length (x :: rest)) - 1)
      with ((i + 1) + Z.of_nat (length rest) - 1) by (cbn [length]; lia).
    destruct (reaches_cutoff x).
    + apply IH; [lia | |].
      * destruct (shot_length <? i - curr_cp); [|assumption].
        apply sorted_snoc; [assumption|].
        eapply Forall_impl; [|exact Hb]. cbn; intros; lia.
      * destruct (shot_length <? i - curr_cp).
        -- apply Forall_app; split.
           ++ eapply Forall_impl; [|exact Hb]. cbn; intros; lia.
           ++ repeat constructor; lia.
        -- eapply Forall_impl; [|exact Hb]. cbn; intros; lia.
    + apply IH; [lia | assumption | assumption].
Qed.

Lemma last_Z_snoc (l : list Z) (x : Z) : last_Z (l ++ [x]) = x.
Proof. unfold last_Z. apply last_last. Qed.

Lemma last_Z_bound (lo hi : Z) (l : list Z) :
  l <> [] -> Forall (fun c => lo <= c < hi) l -> lo <= last_Z l < hi.
Proof.
  unfold last_Z. intros Hne Hall.
  destruct (exists_last Hne) as [l' [x ->]].
  rewrite last_last. apply Forall_app in Hall as [_ Hx].
  inversion Hx; subst; assumption.
Qed.

(** Whenever the detector returns, its result has the shape the
    documentation promises. *)
Lemma change_points_sound (data : list A) (cp : list Z) :
  change_points_with reaches_cutoff data = Ok cp ->
  StronglySorted Z.lt cp /\
  hd_error cp = Some 0 /\
  last_Z cp = Z.of_nat (length data) - 1 /\
  (2 <= length cp)%nat.
Proof.
  destruct data as [|a tl]; [discriminate|].
  unfold change_points_with, bound_ends.
  set (len := Z.of_nat (length (a :: tl))).
  destruct (scan_invariant tl 1 0 []) as [Hs Hb];
    [lia | constructor | constructor |].
  replace (1 + Z.of_nat (length tl) - 1) with (len - 1) in Hb
    by (unfold len; cbn [length]; lia).
  destruct (scan reaches_cutoff tl 1 0 []) as [|c0 cs] eqn:Hscan; [discriminate|].
  intros Hret.
  assert (Hc0 : 0 <= c0 < len - 1) by (inversion Hb; subst; assumption).
  set (cp1 := if negb (c0 =? 0) then [0] ++ c0 :: cs else c0 :: cs) in Hret.
  assert (H1 : StronglySorted Z.lt cp1 /\ hd_error cp1 = Some 0 /\
               Forall (fun c => 0 <= c < len - 1) cp1 /\ cp1 <> []).
  { unfold cp1. destruct (Z.eqb_spec c0 0) as [->|Hne]; cbn [negb app].
    - repeat split; try assumption; discriminate.
    - repeat split; try discriminate.
      + constructor; [assumption|].
        inversion Hs as [|? ? _ Hlt]; subst.
        constructor; [lia|].
        eapply Forall_impl; [|exact Hlt]. cbn; intros; lia.
      + constructor; [lia | assumption]. }
  destruct H1 as (Hs1 & Hhd & Hb1 & Hne1).
  pose proof (last_Z_bound _ _ _ Hne1 Hb1) as Hlast.
  destruct (Z.eqb_spec (last_Z cp1) (len - 1)) as [Heq|_]; [lia|].
  cbn [negb] in Hret. injection Hret as <-.
  repeat split.
  - apply sorted_snoc; [assumption|].
    eapply Forall_impl; [|exact Hb1]. cbn; intros; lia.
  - destruct cp1; [congruence | exact Hhd].
  - apply last_Z_snoc.
  - rewrite length_app. destruct cp1; [congruence | cbn; lia].
Qed.

(** The detector returns exactly when the loop recorded a change point. *)
Lemma change_points_returns_iff (data : list A) :
  returns (change_points_with reaches_cutoff data) <->
  exists a tl, data = a :: tl /\ scan reaches_cutoff tl 1 0 [] <> [].
Proof.
  split.
  - intros [cp Hcp]. destruct data as [|a tl]; [discriminate|].
    exists a, tl. split; [reflexivity|].
    unfold change_points_with, bound_ends in Hcp.
    destruct (scan reaches_cutoff tl 1 0 []); [discriminate | discriminate].
  - intros (a & tl & -> & Hne). unfold change_points_with, bound_ends.
    destruct (scan reaches_cutoff tl 1 0 []) as [|c0 cs]; [congruence|].
    eexists; reflexivity.
Qed.

(** A marker is recorded only when more than [shot_length] indices separate
    it from the index being read, so a sequence of at most 31 elements
    records none. *)
Lemma scan_short (rest : list A) :
  forall i curr_cp,
    0 <= curr_cp < i -> i + Z.of_nat (length rest) <= shot_length + 1 ->
    scan reaches_cutoff rest i curr_cp [] = [].
Proof.
  unfold shot_length.
  induction rest as [|x rest IH]; intros i curr_cp Hc Hlen; cbn [scan].
  - reflexivity.
  - cbn [length] in Hlen. unfold shot_length.
    destruct (reaches_cutoff x).
    + destruct (Z.ltb_spec 30 (i - curr_cp)); [lia|].
      apply IH; lia.
    + apply IH; lia.
Qed.

Lemma change_points_short_raises (data : list A) :
  (1 <= length data <= 31)%nat ->
  change_points_with reaches_cutoff data = Raise IndexError.
Proof.
  intros Hlen. destruct data as [|a tl]; [cbn in Hlen; lia|].
  unfold change_points_with.
  rewrite scan_short; try reflexivity; try lia.
  cbn [length] in Hlen. unfold shot_length. lia.
Qed.

End ChangePointFacts.

(** A sequence with two spikes far enough apart records a change point. *)
Example change_points_far_spikes :
  ChangePoints.change_points
    (repeat 0 31 ++ [100] ++ repeat 0 40 ++ [100; 0; 0]) = Ok [0; 31; 74].
Proof. vm_compute. reflexivity. Qed.

(** C1. The documentation of [change_points] promises the first and the last
    index in every result, but a non-empty sequence in which the loop
    records no change point makes [cp[0]] raise [IndexError]: the detector
    returns nothing for the one-element sequence [[1]], nor for the
    two-spike sequence of the specification. *)
Theorem change_points_no_marker_raises :
  ChangePoints.change_points [1] = Raise IndexError /\
  ChangePoints.change_points ChangePoints.two_spikes = Raise IndexError.
Proof. split; vm_compute; reflexivity. Qed.

(** ** Binary64 rounding *)

(** [round64] agrees with the addition and the multiplication of the
    reference model of binary64 in the Standard Library: at the clock
    reading next to [2 ^ 41], where the sum is a tie, on the literals of
    [edit_playlist], and next to [2 ^ 52]. *)
Example round64_add_tie :
  option_map Qred (SF_value (SpecFloat.SFadd 53 1024
              (SpecFloat.S754_finite false 9007199252488191 (-12))
              (SpecFloat.S754_finite false 1000 0)))
  = Some (Qred (round64 ((9007199252488191 # 4096) + 1000))).
Proof. vm_compute. reflexivity. Qed.

Example round64_literals :
  option_map Qred (SF_value (SpecFloat.S754_finite false 3602879701896397 (-54)))
  = Some (Qred (round64 (2 # 10))) /\
  option_map Qred (SF_value (SpecFloat.S754_finite false 5404319552844595 (-54)))
  = Some (Qred (round64 (3 # 10))).
Proof. split; vm_compute; reflexivity. Qed.

Example round64_mul_add :
  option_map Qred (SF_value (SpecFloat.SFadd 53 1024
              (SpecFloat.S754_finite false 3602879701896397 (-54))
              (SpecFloat.SFmul 53 1024
                 (SpecFloat.S754_finite false 4503599627370496 (-53))
                 (SpecFloat.S754_finite false 5404319552844595 (-54)))))
  = Some (Qred (round64 (round64 (2 # 10) + round64 ((1 # 2) * round64 (3 # 10))))).
Proof. vm_compute. reflexivity. Qed.

Example round64_add_large :
  option_map Qred (SF_value (SpecFloat.SFadd 53 1024
              (SpecFloat.S754_finite false 4503599627370496 0)
              (SpecFloat.S754_finite false 6305039478318694 (-54))))
  = Some (Qred (round64 ((2 ^ 52 # 1) + (6305039478318694 # 2 ^ 54)))).
Proof. vm_compute. reflexivity. Qed.

(** ** Event serializer *)

Section SerializerFacts.

Import Serializer.

(** Within the binade of [clock] every multiple of [2 ^ (-12)] is a
    binary64 value: rounding leaves it alone. *)
Lemma log2_floor_clock (n : Z) :
  2 ^ 52 <= n < 2 ^ 53 -> log2_floor n 4096 = 40.
Proof.
  intros Hn. unfold log2_floor.
  rewrite (Z.log2_unique n 52) by lia.
  change (Z.log2 4096) with 12. change (52 - 12) with 40.
  change (Z.max 0 40) with 40. change (Z.max 0 (- 40)) with 0.
  change (4096 * 2 ^ 40) with (2 ^ 52). rewrite Z.pow_0_r, Z.mul_1_r.
  destruct (Z.leb_spec (2 ^ 52) n); [reflexivity | lia].
Qed.

Lemma nearest_even_multiple (n d : Z) : 0 < d -> nearest_even (n * d) d = n.
Proof.
  intros Hd. unfold nearest_even.
  rewrite Z.div_mul, Z.mod_mul by lia.
  destruct (Z.ltb_spec (2 * 0) d); [reflexivity | lia].
Qed.

Lemma round64_clock (n : Z) :
  2 ^ 52 <= n < 2 ^ 53 -> round64 (clock n) = clock n.
Proof.
  intros Hn. unfold round64, clock. cbn [Qnum Qden].
  destruct n as [|p|p]; [lia| |lia].
  unfold round64_pos. rewrite (log2_floor_clock (Z.pos p) Hn).
  change (Z.max (40 - 52) (-1074)) with (-12).
  change (Z.max 0 (- -12)) with 12. change (Z.max 0 (-12)) with 0.
  change (2 ^ 12) with 4096. change (4096 * 2 ^ 0) with 4096.
  rewrite nearest_even_multiple by lia.
  change (Z.to_pos 4096) with 4096%positive.
  rewrite Z.pow_0_r, Z.mul_1_r. reflexivity.
Qed.

(** One step of the time stamp inside the binade. *)
Lemma clock_step (n : Z) :
  2 ^ 52 <= n -> n + 4096000 < 2 ^ 53 ->
  round64 (clock n + 1000) = clock (n + 4096000) /\
  py_int (clock (n + 4096000)) = py_int (clock n) + 1000.
Proof.
  intros Hlo Hhi.
  assert (Hsum : (clock n + 1000)%Q = clock (n + 4096000)).
  { unfold clock, Qplus. cbn [Qnum Qden].
    change (4096 * 1)%positive with 4096%positive.
    change (1000 * Z.pos 4096) with 4096000.
    rewrite Z.mul_1_r. reflexivity. }
  rewrite Hsum. split; [apply round64_clock; lia|].
  unfold py_int, clock. cbn [Qnum Qden].
  rewrite !Z.quot_div_nonneg by lia.
  change 4096000 with (1000 * 4096). rewrite Z.div_add by lia. reflexivity.
Qed.

Variable V : Type.
Variable features : list string.

(** One group: the records are appended in index order, and the record of
    index [j] carries the time stamp of the group's start plus [1000 * j],
    as long as the time stamps stay inside the binade. *)
Lemma group_loop_spec (i : nat) (f : string) (seq : list V) :
  nth_error features i = Some f ->
  forall (n : Z) (li2 : list (MetricEvent V)),
    2 ^ 52 <= n ->
    n + 4096000 * Z.of_nat (length seq) < 2 ^ 53 ->
    exists time_stamp' evs,
      group_loop features i seq (clock n) li2 = Ok (time_stamp', li2 ++ evs) /\
      map value evs = seq /\
      forall j v, nth_error seq j = Some v ->
        nth_error evs j =
        Some (mkEvent (py_int (clock n) + 1000 * Z.of_nat j) f v track_parameters).
Proof.
  intros Hf. induction seq as [|each rest IH]; intros n li2 Hlo Hhi;
    cbn [group_loop].
  - exists (clock n), []. rewrite app_nil_r. repeat split.
    intros [|j] v; discriminate.
  - rewrite Hf. cbn [length] in Hhi.
    destruct (clock_step n Hlo ltac:(lia)) as [Hround Hstep].
    rewrite Hround.
    destruct (IH (n + 4096000)
                 (li2 ++ [mkEvent (py_int (clock n)) f each track_parameters])
                 ltac:(lia) ltac:(lia))
      as (ts' & evs & Hrun & Hval & Hnth).
    exists ts', (mkEvent (py_int (clock n)) f each track_parameters :: evs).
    repeat split.
    + rewrite Hrun, <- app_assoc. reflexivity.
    + cbn. rewrite Hval. reflexivity.
    + intros [|j] v Hj; cbn in Hj |- *.
      * injection Hj as ->. rewrite Z.add_0_r. reflexivity.
      * rewrite (Hnth j v Hj), Hstep. do 2 f_equal. lia.
Qed.

(** All groups start from the same [copy]. *)
Lemma groups_loop_spec (m : Z) (rest : list (list V)) :
  2 ^ 52 <= m ->
  Forall (fun s => m + 4096000 * Z.of_nat (length s) < 2 ^ 53) rest ->
  forall (i : nat) (li2 : list (MetricEvent V)),
    (i + length rest <= length features)%nat ->
    exists out,
      groups_loop features (clock m) i rest (clock m) li2 = Ok (li2 ++ out) /\
      map value out = concat rest /\
      forall k s j v f,
        nth_error rest k = Some s -> nth_error s j = Some v ->
        nth_error features (i + k) = Some f ->
        nth_error out (group_offset rest k + j) =
        Some (mkEvent (py_int (clock m) + 1000 * Z.of_nat j) f v track_parameters).
Proof.
  intros Hlo. induction 1 as [|seq rest Hseq _ IH]; intros i li2 Hlen;
    cbn [groups_loop].
  - exists []. rewrite app_nil_r. repeat split.
    intros [|k] s j v f; discriminate.
  - cbn [length] in Hlen.
    destruct (nth_error features i) as [f0|] eqn:Hf0;
      [|apply nth_error_None in Hf0; lia].
    destruct (group_loop_spec i f0 seq Hf0 m li2 Hlo Hseq)
      as (ts' & evs & Hrun & Hval & Hnth).
    rewrite Hrun. cbn [bind snd].
    destruct (IH (S i) (li2 ++ evs)) as (out & Hrest & Hvals & Hpos); [lia|].
    exists (evs ++ out). repeat split.
    + rewrite Hrest, <- app_assoc. reflexivity.
    + rewrite map_app, Hval, Hvals. reflexivity.
    + assert (Hlen_evs : length evs = length seq)
        by (rewrite <- Hval; symmetry; apply length_map).
      intros [|k] s j v f Hs Hj Hf.
      * cbn in Hs. injection Hs as <-.
        rewrite Nat.add_0_r, Hf0 in Hf. injection Hf as <-.
        unfold group_offset. cbn [firstn concat length Nat.add].
        rewrite nth_error_app1
          by (rewrite Hlen_evs; apply nth_error_Some; congruence).
        apply Hnth; assumption.
      * cbn in Hs.
        unfold group_offset. cbn [firstn concat]. rewrite length_app.
        rewrite <- Hlen_evs, <- Nat.add_assoc.
        rewrite nth_error_app2 by lia.
        replace (length evs + (length (concat (firstn k rest)) + j) - length evs)%nat
          with (group_offset rest k + j)%nat by (unfold group_offset; lia).
        apply (Hpos k s j v f Hs Hj).
        rewrite <- Hf. f_equal. lia.
Qed.

End SerializerFacts.

(** C2. Given a label for every sequence and a clock reading [m / 4096]
    between [2 ^ 40] and [2 ^ 41] ms after the epoch, such that the time
    stamps of every sequence stay below [2 ^ 41] and the additions of 1000
    are therefore exact in binary64, [to_json] builds one record per
    (sequence, index) pair in sequence-major, index-minor order; the record
    of index [j] of every sequence carries the time stamp
    [int(now) + 1000 * j], the same base for every group.  For
    [[[1,2],[3,4]]] with two labels there are four records, the first and
    the third share their time stamp and the second lies exactly 1000 after
    the first. *)
Theorem to_json_shared_time_axis (V : Type) (m : Z)
  (lists : list (list V)) (features : list string) :
  2 ^ 52 <= m ->
  Forall (fun s => m + 4096000 * Z.of_nat (length s) < 2 ^ 53) lists ->
  (length lists <= length features)%nat ->
  (exists out,
     Serializer.to_json (Serializer.clock m) lists features = Ok out /\
     map Serializer.value out = concat lists /\
     forall i s j v f,
       nth_error lists i = Some s -> nth_error s j = Some v ->
       nth_error features i = Some f ->
       nth_error out (Serializer.group_offset lists i + j) =
       Some (Serializer.mkEvent
               (Serializer.py_int (Serializer.clock m) + 1000 * Z.of_nat j) f v
               Serializer.track_parameters)) /\
  (m + 4096000 * 2 < 2 ^ 53 ->
   forall a b : string,
     exists l1 l2 l3 l4,
       Serializer.to_json (Serializer.clock m) [[1; 2]; [3; 4]] [a; b]
       = Ok [l1; l2; l3; l4] /\
       Serializer.timestamp l1 = Serializer.timestamp l3 /\
       Serializer.timestamp l2 = Serializer.timestamp l1 + 1000).
Proof.
  intros Hlo Hhi Hlen. split.
  - destruct (groups_loop_spec V features m lists Hlo Hhi 0%nat [])
      as (out & Hrun & Hrest); [cbn; lia|].
    exists out. split; [exact Hrun | exact Hrest].
  - intros Hex a b.
    destruct (groups_loop_spec Z [a; b] m [[1; 2]; [3; 4]] Hlo) with
      (i := 0%nat) (li2 := @nil (Serializer.MetricEvent Z))
      as (out & Hrun & Hval & Hpos).
    { repeat constructor; cbn [length]; lia. }
    { cbn; lia. }
    unfold Serializer.to_json. rewrite Hrun. cbn [app].
    pose proof (Hpos 0%nat [1; 2] 0%nat 1 a eq_refl eq_refl eq_refl) as H1.
    pose proof (Hpos 0%nat [1; 2] 1%nat 2 a eq_refl eq_refl eq_refl) as H2.
    pose proof (Hpos 1%nat [3; 4] 0%nat 3 b eq_refl eq_refl eq_refl) as H3.
    pose proof (Hpos 1%nat [3; 4] 1%nat 4 b eq_refl eq_refl eq_refl) as H4.
    cbn [Serializer.group_offset firstn concat length app Nat.add] in H1, H2, H3, H4.
    assert (Hlen4 : length out = 4%nat)
      by (rewrite <- (length_map Serializer.value out), Hval; reflexivity).
    destruct out as [|l1 [|l2 [|l3 [|l4 [|l5 out]]]]]; try discriminate.
    cbn [nth_error] in H1, H2, H3, H4.
    injection H1 as ->. injection H2 as ->. injection H3 as ->. injection H4 as ->.
    do 4 eexists. split; [reflexivity|].
    cbn [Serializer.timestamp]. split; lia.
Qed.

(** The assumptions are needed.  Without a label for a sequence the lookup
    [features[i]] raises before anything is written; and a clock reading
    999.5 ms before [2 ^ 41] puts the second time stamp on a tie of the
    coarser grid above [2 ^ 41], which rounds to the even neighbour: the
    step is 1001. *)
Remark to_json_missing_label :
  Serializer.to_json (Serializer.clock Serializer.example_clock) [[1]] []
  = Raise IndexError.
Proof. reflexivity. Qed.

Remark to_json_step_across_binade :
  map Serializer.timestamp
      match Serializer.to_json (Serializer.clock Serializer.boundary_clock)
              [[1; 2; 3]] ["a"%string] with
      | Ok out => out
      | Raise _ => []
      end
  = [2199023255001; 2199023256002; 2199023257002].
Proof. vm_compute. reflexivity. Qed.

(** The serializer on the example of the specification, at a clock reading
    of 1700000000123.456 ms. *)
Lemma to_json_shared_time_axis_witness :
  2 ^ 52 <= Serializer.example_clock /\
  Forall (fun s => Serializer.example_clock + 4096000 * Z.of_nat (length s)
                   < 2 ^ 53) Serializer.example_lists /\
  (length Serializer.example_lists <= length Serializer.example_labels)%nat /\
  exists out,
    Serializer.to_json (Serializer.clock Serializer.example_clock)
      Serializer.example_lists Serializer.example_labels = Ok out /\
    map Serializer.value out = [1; 2; 3; 4] /\
    map Serializer.timestamp out
    = [1700000000123; 1700000001123; 1700000000123; 1700000001123].
Proof.
  assert (Hlo : 2 ^ 52 <= Serializer.example_clock) by (vm_compute; discriminate).
  assert (Hhi : Forall (fun s => Serializer.example_clock
                                 + 4096000 * Z.of_nat (length s) < 2 ^ 53)
                       Serializer.example_lists)
    by (repeat constructor).
  assert (Hlen : (length Serializer.example_lists
                  <= length Serializer.example_labels)%nat) by (cbn; lia).
  split; [exact Hlo|]. split; [exact Hhi|]. split; [exact Hlen|].
  destruct (to_json_shared_time_axis Z _ _ _ Hlo Hhi Hlen)
    as [[out [Hrun [Hval _]]] _].
  exists out. split; [exact Hrun|]. split; [exact Hval|].
  assert (Hcomp : Serializer.to_json (Serializer.clock Serializer.example_clock)
                    Serializer.example_lists Serializer.example_labels
                  = Ok [Serializer.mkEvent 1700000000123 "a" 1 Serializer.track_parameters;
                        Serializer.mkEvent 1700000001123 "a" 2 Serializer.track_parameters;
                        Serializer.mkEvent 1700000000123 "b" 3 Serializer.track_parameters;
                        Serializer.mkEvent 1700000001123 "b" 4 Serializer.track_parameters])
    by (vm_compute; reflexivity).
  rewrite Hcomp in Hrun. injection Hrun as <-. reflexivity.
Defined.

(** ** Frames *)

Lemma u8_range (b : uint8) : 0 <= u8 b <= 255.
Proof.
  unfold u8. pose proof (Byte.to_N_bounded b) as Hb.
  split; [apply N2Z.is_nonneg|].
  change 255 with (Z.of_N 255). apply N2Z.inj_le. exact Hb.
Qed.

Section FrameFacts.

Import Video.

Variables height width : nat.

Lemma length_pixels (f : Frame) :
  length (pixels height width f) = (height * width)%nat.
Proof.
  unfold pixels. generalize 0%nat at 2.
  induction height as [|h IH]; intros r0; [reflexivity|].
  cbn [seq flat_map]. rewrite length_app, length_map, length_seq, IH. lia.
Qed.

Lemma length_samples (f : Frame) :
  length (samples height width f) = (3 * (height * width))%nat.
Proof.
  unfold samples. rewrite <- (length_pixels f).
  induction (pixels height width f) as [|[[c0 c1] c2] ps IH]; [reflexivity|].
  cbn [flat_map channels length app]. rewrite IH. lia.
Qed.

Lemma samples_range (f : Frame) :
  Forall (fun x => 0 <= x <= 255) (samples height width f).
Proof.
  unfold samples.
  induction (pixels height width f) as [|[[c0 c1] c2] ps IH]; [constructor|].
  cbn [flat_map channels app].
  repeat (constructor; [apply u8_range|]). exact IH.
Qed.

(** The exact sum of the samples of a frame lies between [0] and
    [width * height * 3 * 255]. *)
Lemma samples_sum_range (f : Frame) :
  0 <= zsum (samples height width f)
    <= Z.of_nat width * Z.of_nat height * 3 * 255.
Proof.
  pose proof (samples_range f) as Hr. split.
  - apply zsum_nonneg. eapply Forall_impl; [|exact Hr]. cbn; intros; lia.
  - transitivity (255 * Z.of_nat (length (samples height width f))).
    + apply zsum_bounded. eapply Forall_impl; [|exact Hr]. cbn; intros; lia.
    + rewrite length_samples. lia.
Qed.

Lemma frame_total_range (f : Frame) :
  0 <= frame_total height width f < 2 ^ 32.
Proof. unfold frame_total, wrap_uint32, wrap_unsigned. apply Z.mod_pos_bound. lia. Qed.

(** The samples of a frame of one colour. *)
Lemma samples_sum_uniform (p : Pixel) :
  zsum (samples height width (fun _ _ => p))
  = Z.of_nat height * Z.of_nat width * zsum (channels p).
Proof.
  unfold samples, pixels. generalize 0%nat at 2.
  induction height as [|h IH]; intros r0; [cbn; lia|].
  cbn [seq flat_map]. rewrite flat_map_app, zsum_app, IH.
  assert (Hrow : forall c0 n, zsum (flat_map channels (map (fun _ : nat => p) (seq c0 n)))
                         = Z.of_nat n * zsum (channels p)).
  { intros c0 n; revert c0. induction n as [|n IHn]; intros c0; [cbn; lia|].
    cbn [seq map flat_map]. rewrite zsum_app, IHn. lia. }
  rewrite Hrow. lia.
Qed.

(** *** The read loop of [brightness] *)

Lemma brightness_loop_acc (n : nat) :
  forall s li,
    brightness_loop height width n s li
    = li ++ brightness_loop height width n s [].
Proof.
  induction n as [|n IH]; intros s li; cbn [brightness_loop].
  - rewrite app_nil_r. reflexivity.
  - destruct (read s) as [[f|] s'];
      rewrite IH, (IH s' ([] ++ _)); cbn [app]; rewrite <- app_assoc; reflexivity.
Qed.

Lemma brightness_loop_length (n : nat) :
  forall s, length (brightness_loop height width n s []) = n.
Proof.
  induction n as [|n IH]; intros s; cbn [brightness_loop]; [reflexivity|].
  destruct (read s) as [[f|] s'];
    rewrite brightness_loop_acc, length_app, IH; reflexivity.
Qed.

Lemma brightness_loop_nth (n : nat) :
  forall s k, (k < n)%nat ->
    nth_error (brightness_loop height width n s []) k
    = Some (brightness_entry height width (nth k s None)).
Proof.
  induction n as [|n IH]; intros s k Hk; [lia|].
  cbn [brightness_loop].
  destruct s as [|fr s']; cbn [read].
  - rewrite brightness_loop_acc. destruct k as [|k]; [reflexivity|].
    cbn [app nth_error]. rewrite IH by lia. destruct k; reflexivity.
  - destruct fr as [f|]; rewrite brightness_loop_acc;
      (destruct k as [|k]; [reflexivity|]);
      cbn [app nth_error nth]; apply IH; lia.
Qed.

(** *** The read loop of [contrast] *)

Lemma contrast_loop_acc (n : nat) :
  forall s frame li,
    contrast_loop height width n s frame li
    = li ++ contrast_loop height width n s frame [].
Proof.
  induction n as [|n IH]; intros s frame li; cbn [contrast_loop].
  - rewrite app_nil_r. reflexivity.
  - destruct (read s) as [[f|] s'];
      rewrite IH, (IH s' _ ([] ++ _)); cbn [app]; rewrite <- app_assoc; reflexivity.
Qed.

Lemma contrast_loop_length (n : nat) :
  forall s frame, length (contrast_loop height width n s frame []) = n.
Proof.
  induction n as [|n IH]; intros s frame; cbn [contrast_loop]; [reflexivity|].
  destruct (read s) as [[f|] s'];
    rewrite contrast_loop_acc, length_app, IH; reflexivity.
Qed.

(** Position [k] of the output compares read [k] with the last frame that
    decoded before it. *)
Lemma contrast_loop_nth (n : nat) :
  forall s frame k, (k < n)%nat ->
    nth_error (contrast_loop height width n s frame []) k
    = Some (contrast_entry height width (last_decoded frame (firstn k s))
                           (nth k s None)).
Proof.
  induction n as [|n IH]; intros s frame k Hk; [lia|].
  cbn [contrast_loop].
  destruct s as [|fr s']; cbn [read].
  - rewrite contrast_loop_acc. destruct k as [|k]; [reflexivity|].
    cbn [app nth_error]. rewrite IH by lia.
    rewrite !firstn_nil. destruct k; reflexivity.
  - destruct fr as [f|]; rewrite contrast_loop_acc;
      (destruct k as [|k]; [reflexivity|]);
      cbn [app nth_error nth firstn last_decoded]; apply IH; lia.
Qed.

End FrameFacts.

(** The three extractors on the capture [tiny_video]. *)
Example brightness_tiny_video :
  Video.brightness 2 2 Video.tiny_video = [24; -1; 3060; -1].
Proof. vm_compute. reflexivity. Qed.

Example contrast_tiny_video :
  Video.contrast 2 2 Video.tiny_video = Ok [-1; 3036; -1].
Proof. vm_compute. reflexivity. Qed.

Example histogram_tiny_video :
  Video.histogram 2 2 Video.tiny_video = [4; -1; 8].
Proof. vm_compute. reflexivity. Qed.

(** C3. [brightness] returns one value per declared frame; a frame that
    decoded contributes a non-negative value, and [-1] stands exactly at the
    positions whose read failed, up to the declared frame count. *)
Theorem brightness_dense (height width : nat) (video : Video.FrameSource) :
  length (Video.brightness height width video) = Video.frame_count video /\
  forall k, (k < Video.frame_count video)%nat ->
    (forall f, Video.read_at video k = Some f ->
               0 <= nth k (Video.brightness height width video) 0) /\
    (nth k (Video.brightness height width video) 0 = -1
     <-> Video.read_at video k = None).
Proof.
  unfold Video.brightness, Video.read_at. split.
  - apply brightness_loop_length.
  - intros k Hk.
    pose proof (brightness_loop_nth height width _ (Video.stream video) k Hk) as Hnth.
    apply (nth_error_nth _ _ 0) in Hnth. rewrite Hnth.
    destruct (nth k (Video.stream video) None) as [f|]; cbn [Video.brightness_entry].
    + pose proof (frame_total_range height width f) as Hr.
      split; [intros; lia|]. split; [lia | discriminate].
    + split; [discriminate|]. split; reflexivity.
Qed.

(** When the first read succeeds, [contrast] returns one value for every
    declared frame but the first. *)
Lemma contrast_length (height width : nat) (video : Video.FrameSource) (f0 : Video.Frame) :
  Video.read_at video 0 = Some f0 ->
  exists li,
    Video.contrast height width video = Ok li /\
    length li = (Video.frame_count video - 1)%nat.
Proof.
  unfold Video.read_at, Video.contrast. destruct video as [fc [|fr s]]; cbn.
  - discriminate.
  - intros ->. eexists. split; [reflexivity|]. apply contrast_loop_length.
Qed.

(** C4. [contrast] converts the first frame without testing whether the
    read succeeded, unlike the reads of its loop: on a capture whose first
    read fails, whatever its declared frame count, it returns no sequence
    but raises [AttributeError].  This includes the capture that has no
    frames at all. *)
Theorem contrast_first_read_unchecked (height width fc : nat)
  (rest : list (option Video.Frame)) :
  Video.contrast height width (Video.mkSource fc (None :: rest)) = Raise AttributeError /\
  Video.contrast height width (Video.mkSource fc []) = Raise AttributeError /\
  Video.contrast height width (Video.mkSource 0 []) = Raise AttributeError.
Proof. repeat split. Qed.

(** C5. In [contrast] a failed read appends [-1] and leaves the reference
    frame as it is: the loop continues from the same [frame], and in the
    whole output the value at position [k] is [-1] when read [k + 1] failed
    and otherwise the distance of that frame to the last frame that decoded
    before it. *)
Theorem contrast_failed_read_keeps_reference (height width : nat) :
  (forall n s frame li,
     Video.contrast_loop height width (S n) (None :: s) frame li
     = Video.contrast_loop height width n s frame (li ++ [-1])) /\
  (forall fc f0 s,
     exists li,
       Video.contrast height width (Video.mkSource fc (Some f0 :: s)) = Ok li /\
       forall k, (k < fc - 1)%nat ->
         nth_error li k =
         Some match nth k s None with
              | None => -1
              | Some f2 =>
                  Video.frame_distance height width f2
                    (Video.last_decoded f0 (firstn k s))
              end).
Proof.
  split; [reflexivity|].
  intros fc f0 s. eexists. split; [reflexivity|].
  intros k Hk. cbn [Video.frame_count].
  rewrite contrast_loop_nth by exact Hk.
  unfold Video.contrast_entry. destruct (nth k s None); reflexivity.
Qed.

(** C7. The documentation of [brightness] calls the metric the sum of all
    colour components of every pixel, but the accumulator has 32 bits: the
    samples of a white frame of 3840 x 2160 pixels sum to 6345216000, which
    does not fit, and [brightness] records 2050248704 for it. *)
Lemma brightness_overflows_on_uhd_frame :
  Video.read_at Video.white_video 0 = Some Video.white_frame /\
  zsum (Video.samples Video.uhd_height Video.uhd_width Video.white_frame)
    = 6345216000 /\
  Video.brightness Video.uhd_height Video.uhd_width Video.white_video
    = [2050248704] /\
  nth 0 (Video.brightness Video.uhd_height Video.uhd_width Video.white_video) 0
    <> zsum (Video.samples Video.uhd_height Video.uhd_width Video.white_frame).
Proof.
  assert (Hsum : zsum (Video.samples Video.uhd_height Video.uhd_width Video.white_frame)
                 = 6345216000).
  { unfold Video.white_frame. rewrite samples_sum_uniform. vm_compute. reflexivity. }
  assert (Hrun : Video.brightness Video.uhd_height Video.uhd_width Video.white_video
                 = [2050248704]).
  { unfold Video.brightness, Video.white_video.
    cbn [Video.frame_count Video.stream Video.brightness_loop Video.read app].
    unfold Video.frame_total. rewrite Hsum. vm_compute. reflexivity. }
  split; [reflexivity|]. split; [exact Hsum|]. split; [exact Hrun|].
  rewrite Hrun, Hsum. cbn [nth]. discriminate.
Qed.

(** What [brightness] records for a decoded frame is the sum of all its
    samples reduced modulo [2^32]: the value is the sum itself as long as
    [width * height * 3 * 255] is below [2^32]. *)
Theorem brightness_sum_modulo_32_bits (height width : nat)
  (video : Video.FrameSource) (k : nat) (f : Video.Frame) :
  (k < Video.frame_count video)%nat ->
  Video.read_at video k = Some f ->
  nth_error (Video.brightness height width video) k
    = Some (zsum (Video.samples height width f) mod 2 ^ 32) /\
  (Z.of_nat width * Z.of_nat height * 3 * 255 < 2 ^ 32 ->
   nth_error (Video.brightness height width video) k
     = Some (zsum (Video.samples height width f))).
Proof.
  intros Hk Hread. unfold Video.brightness, Video.read_at in *.
  rewrite brightness_loop_nth by exact Hk. rewrite Hread.
  cbn [Video.brightness_entry]. unfold Video.frame_total, wrap_uint32, wrap_unsigned.
  split; [reflexivity|].
  intros Hfit. pose proof (samples_sum_range height width f) as Hr.
  rewrite Z.mod_small by lia. reflexivity.
Qed.

Lemma brightness_sum_modulo_32_bits_witness :
  (0 < Video.frame_count Video.tiny_video)%nat /\
  Video.read_at Video.tiny_video 0 = Some Video.dark_frame /\
  nth_error (Video.brightness 2 2 Video.tiny_video) 0
    = Some (zsum (Video.samples 2 2 Video.dark_frame)).
Proof.
  assert (Hk : (0 < Video.frame_count Video.tiny_video)%nat) by (cbn; lia).
  assert (Hr : Video.read_at Video.tiny_video 0 = Some Video.dark_frame)
    by reflexivity.
  split; [exact Hk|]. split; [exact Hr|].
  apply (proj2 (brightness_sum_modulo_32_bits 2 2 Video.tiny_video 0
                  Video.dark_frame Hk Hr)).
  cbn. lia.
Defined.

(** ** Histogram bins *)

Lemma quantize_range (c : uint8) : 0 <= Video.quantize c <= 7.
Proof.
  unfold Video.quantize, Video.BINLEN. pose proof (u8_range c) as Hc.
  change (256 / 8) with 32. change (2 ^ 16) with 65536.
  rewrite Z.mod_small by lia.
  split; [apply Z.div_pos; lia|].
  apply Z.lt_succ_r. apply Z.div_lt_upper_bound; lia.
Qed.

(** Every pixel falls into one of the [BINLEN ^ 3] bins. *)
Lemma bin_index_range (p : Video.Pixel) : 0 <= Video.bin_index p < 512.
Proof.
  destruct p as [[c0 c1] c2]. unfold Video.bin_index, Video.BINLEN.
  pose proof (quantize_range c0). pose proof (quantize_range c1).
  pose proof (quantize_range c2). lia.
Qed.

Lemma fold_max_bound (b : Z) (l : list Z) :
  forall x, x < b -> Forall (fun v => v < b) l -> fold_left Z.max l x < b.
Proof.
  induction l as [|y l IH]; intros x Hx Hl; cbn [fold_left]; [exact Hx|].
  inversion Hl; subst. apply IH; [lia | assumption].
Qed.

(** Among the counters [a, a + 1, ..., a + n - 1] exactly the one of [v] sees
    an occurrence of [v]. *)
Lemma indicator_sum (v : Z) (n : nat) :
  forall a : nat,
    zsum (map (fun b => if Z.eq_dec v (Z.of_nat b) then 1 else 0) (seq a n))
    = if (Z.of_nat a <=? v) && (v <? Z.of_nat a + Z.of_nat n) then 1 else 0.
Proof.
  induction n as [|n IH]; intros a; cbn [seq map].
  - cbn [zsum fold_right].
    destruct (Z.leb_spec (Z.of_nat a) v), (Z.ltb_spec v (Z.of_nat a + Z.of_nat 0));
      cbn; lia.
  - rewrite zsum_cons, IH.
    destruct (Z.eq_dec v (Z.of_nat a));
      destruct (Z.leb_spec (Z.of_nat (S a)) v),
               (Z.ltb_spec v (Z.of_nat (S a) + Z.of_nat n)),
               (Z.leb_spec (Z.of_nat a) v),
               (Z.ltb_spec v (Z.of_nat a + Z.of_nat (S n)));
      cbn [andb]; lia.
Qed.

(** The counters of [n] bins add up to the number of values counted when
    every value has a bin. *)
Lemma count_sum (n : nat) (x : list Z) :
  Forall (fun v => 0 <= v < Z.of_nat n) x ->
  zsum (map (fun b => Z.of_nat (count_occ Z.eq_dec x (Z.of_nat b))) (seq 0 n))
  = Z.of_nat (length x).
Proof.
  induction 1 as [|v x Hv _ IH].
  - cbn [count_occ length]. induction (seq 0 n) as [|b l IHl]; [reflexivity|].
    cbn [map]. rewrite zsum_cons, IHl. reflexivity.
  - cbn [length]. rewrite Nat2Z.inj_succ, <- IH.
    pose proof (indicator_sum v n 0) as Hind.
    replace ((Z.of_nat 0 <=? v) && (v <? Z.of_nat 0 + Z.of_nat n)) with true in Hind
      by (symmetry; apply andb_true_iff; split;
          [apply Z.leb_le | apply Z.ltb_lt]; lia).
    rewrite <- Z.add_1_l, <- Hind.
    generalize (seq 0 n) as l. induction l as [|b l IHl]; [reflexivity|].
    cbn [map]. rewrite !zsum_cons, IHl. cbn [count_occ].
    destruct (Z.eq_dec v (Z.of_nat b)); lia.
Qed.

(** C9. The occupancy vector that [histogram] computes for a decoded frame
    has [BINLEN ^ 3 = 512] counters, every pixel of the frame has its bin
    among them, and the counters add up to [width * height]. *)
Theorem histogram_bins_total (height width : nat) (f : Video.Frame) :
  length (Video.frame_bins height width f) = 512%nat /\
  Forall (fun p => 0 <= Video.bin_index p < 512) (Video.pixels height width f) /\
  zsum (Video.frame_bins height width f) = Z.of_nat width * Z.of_nat height.
Proof.
  assert (Hall : Forall (fun v => 0 <= v < Z.of_nat 512)
                        (map Video.bin_index (Video.pixels height width f))).
  { apply Forall_map, Forall_forall. intros p _.
    pose proof (bin_index_range p). lia. }
  assert (Hbins : Nat.max (Z.to_nat (Video.BINLEN ^ 3))
                    (Video.bins_needed
                       (map Video.bin_index (Video.pixels height width f)))
                  = 512%nat).
  { change (Z.to_nat (Video.BINLEN ^ 3)) with 512%nat.
    apply Nat.max_l. unfold Video.bins_needed.
    destruct (map Video.bin_index (Video.pixels height width f)) as [|x0 tl];
      [lia|].
    inversion Hall; subst.
    assert (fold_left Z.max tl x0 < 512).
    { apply fold_max_bound; [lia|].
      eapply Forall_impl; [|eassumption]. cbn; intros; lia. }
    lia. }
  unfold Video.frame_bins, Video.bincount. rewrite Hbins.
  split; [|split].
  - rewrite length_map, length_seq. reflexivity.
  - apply Forall_forall. intros p _. apply bin_index_range.
  - rewrite (count_sum 512 _ Hall), length_map, length_pixels. lia.
Qed.

(** ** Amplitude *)

(** What the 1-byte branch of [amplitude] makes of a sample byte: the
    subtraction wraps around in [np.uint16] for bytes below 128. *)
Lemma recentre_magnitude (b : uint8) :
  Audio.absolute_int32 (Audio.recentre (u8 b))
  = if u8 b <? 128 then u8 b + 65408 else u8 b - 128.
Proof. destruct b; vm_compute; reflexivity. Qed.

Lemma Fin_eq (p q : Qc) : (p == q)%Q -> Fin p = Fin q.
Proof. intros H. f_equal. apply Qc_is_canon. exact H. Qed.

(** C8. The comment of [amplitude] announces the range [-128..127] for
    8-bit audio, but the subtraction is done in [np.uint16]: for the
    constant buffer of value [0] the extractor emits 65408, not
    [|0 - 128| = 128]. *)
Theorem amplitude_low_byte_wraps :
  Audio.amplitude 1 Audio.low_audio = Ok [Fin (of_Z 65408)] /\
  Audio.absolute_int32 (Audio.recentre (u8 Byte.x00)) = 65408 /\
  Z.abs (u8 Byte.x00 - 128) = 128.
Proof.
  repeat split.
  unfold Audio.amplitude, Audio.low_audio.
  cbn -[Audio.chunk_value]. do 2 f_equal.
  unfold Audio.chunk_value, Audio.round3, Audio.average. cbn [Nat.eqb map].
  apply Fin_eq. vm_compute. reflexivity.
Qed.

(** ** Aggregator *)

Section JointFacts.

Import Joint.

Lemma iadd_same_length (res operand : list float) :
  length operand = length res ->
  iadd res operand
  = Ok (map (fun ab => fadd (fst ab) (snd ab)) (combine res operand)).
Proof. intros Hlen. unfold iadd. rewrite Hlen, Nat.eqb_refl. reflexivity. Qed.

Lemma iadd_length (res operand r : list float) :
  iadd res operand = Ok r -> length r = length res.
Proof.
  unfold iadd. destruct (Nat.eqb_spec (length operand) (length res)) as [Heq|_].
  - intros [= <-]. rewrite length_map, length_combine, Heq. apply Nat.min_id.
  - destruct operand as [|x [|y operand]]; try discriminate.
    intros [= <-]. apply length_map.
Qed.

(** A longer operand cannot be added to a non-empty result. *)
Lemma iadd_longer (res operand : list float) :
  (1 <= length res < length operand)%nat ->
  iadd res operand = Raise ValueError.
Proof.
  intros Hlen. unfold iadd.
  destruct (Nat.eqb_spec (length operand) (length res)) as [Heq|_]; [lia|].
  destruct operand as [|x [|y operand]]; [reflexivity | cbn in Hlen; lia | reflexivity].
Qed.

Lemma joint_step_length (base : nat) (res r : list float) (d : list Qc) :
  joint_step base res d = Ok r -> length r = length res.
Proof.
  unfold joint_step.
  destruct (np_max _) as [m|e]; cbn [bind]; [|discriminate].
  apply iadd_length.
Qed.

(** Every failure of an iteration is a [ValueError]. *)
Lemma iadd_error (res operand : list float) (e : exn) :
  iadd res operand = Raise e -> e = ValueError.
Proof.
  unfold iadd. destruct (Nat.eqb (length operand) (length res)); [discriminate|].
  destruct operand as [|x [|y l]]; try discriminate; intros [= <-]; reflexivity.
Qed.

Lemma np_max_error (temp : list Qc) (e : exn) :
  np_max temp = Raise e -> e = ValueError.
Proof. destruct temp; [intros [= <-]; reflexivity | discriminate]. Qed.

Lemma joint_step_error (base : nat) (res : list float) (d : list Qc) (e : exn) :
  joint_step base res d = Raise e -> e = ValueError.
Proof.
  unfold joint_step.
  destruct (np_max _) as [m|e'] eqn:Hmax; cbn [bind].
  - apply iadd_error.
  - intros [= <-]. eapply np_max_error. exact Hmax.
Qed.

Lemma joint_step_longer (base : nat) (res : list float) (d : list Qc) :
  (1 <= base)%nat -> length res = base -> (base < length d)%nat ->
  joint_step base res d = Raise ValueError.
Proof.
  intros Hbase Hres Hd. unfold joint_step.
  destruct (Nat.ltb_spec (length d) base) as [|_]; [lia|].
  destruct d as [|x tl]; [cbn in Hd; lia|].
  cbn [np_max bind]. apply iadd_longer. rewrite length_map. lia.
Qed.

Lemma joint_loop_longer (base : nat) (data : list (list Qc)) :
  (1 <= base)%nat ->
  Exists (fun d => (base < length d)%nat) data ->
  forall res, length res = base ->
    joint_loop base data res = Raise ValueError.
Proof.
  intros Hbase. induction 1 as [d data Hd | d data _ IH]; intros res Hres;
    cbn [joint_loop].
  - rewrite joint_step_longer by assumption. reflexivity.
  - destruct (joint_step base res d) as [res'|e] eqn:Hstep; cbn [bind].
    + apply IH. rewrite (joint_step_length _ _ _ _ Hstep). exact Hres.
    + f_equal. eapply joint_step_error; eassumption.
Qed.

(** *** Inputs that are not longer than the first *)

Lemma Qcmax_cases (a b : Qc) : Qcmax a b = a \/ Qcmax a b = b.
Proof. unfold Qcmax. destruct (a ?= b)%Qc; auto. Qed.

Lemma fold_Qcmax_in (l : list Qc) :
  forall x, In (fold_left Qcmax l x) (x :: l).
Proof.
  induction l as [|y l IH]; intros x; cbn [fold_left]; [left; reflexivity|].
  destruct (IH (Qcmax x y)) as [Heq|Hin].
  - rewrite <- Heq.
    destruct (Qcmax_cases x y) as [Hm|Hm]; rewrite Hm.
    + left. reflexivity.
    + right. left. reflexivity.
  - right. right. exact Hin.
Qed.

Lemma fdiv_positive (x m : Qc) : (0 < m)%Qc -> fdiv x m = Fin (x / m)%Qc.
Proof.
  intros Hm. unfold fdiv.
  assert (Hgt : (m ?= 0)%Qc = Gt) by (apply Qcgt_alt; exact Hm).
  rewrite Hgt. reflexivity.
Qed.

Lemma padded_length (base : nat) (d : list Qc) :
  (length d <= base)%nat -> length (padded base d) = base.
Proof. intros H. unfold padded. rewrite length_app, repeat_length. lia. Qed.

Lemma joint_step_padded (base : nat) (res : list float) (d : list Qc) :
  (1 <= base)%nat -> length res = base -> (length d <= base)%nat ->
  exists m,
    np_max (padded base d) = Ok m /\
    joint_step base res d
    = Ok (map (fun ab => fadd (fst ab) (snd ab))
              (combine res (map (fun x => fdiv x m) (padded base d)))).
Proof.
  intros Hbase Hres Hd. unfold joint_step.
  assert (Htemp : (if (length d <? base)%nat then resize base d else d)
                  = padded base d).
  { unfold padded, resize. destruct (Nat.ltb_spec (length d) base); [reflexivity|].
    replace (base - length d)%nat with 0%nat by lia.
    cbn [repeat]. rewrite app_nil_r. reflexivity. }
  rewrite Htemp. pose proof (padded_length base d Hd) as Hlen.
  destruct (padded base d) as [|x tl] eqn:Hp; [cbn in Hlen; lia|].
  exists (fold_left Qcmax tl x). split; [reflexivity|].
  cbn [np_max bind]. apply iadd_same_length.
  rewrite length_map, Hlen, Hres. reflexivity.
Qed.

Lemma rescaled_padded (base : nat) (d : list Qc) (m : Qc) (i : nat) :
  np_max (padded base d) = Ok m ->
  rescaled base d i = fdiv (nth i (padded base d) (of_Z 0)) m.
Proof.
  unfold rescaled.
  destruct (padded base d) as [|x tl]; [discriminate|].
  intros [= <-]. reflexivity.
Qed.

Lemma joint_step_nth (base : nat) (res r : list float) (d : list Qc) (i : nat) :
  (1 <= base)%nat -> length res = base -> (length d <= base)%nat ->
  joint_step base res d = Ok r -> (i < base)%nat ->
  nth i r NaN = fadd (nth i res NaN) (rescaled base d i).
Proof.
  intros Hbase Hres Hd Hstep Hi.
  destruct (joint_step_padded base res d Hbase Hres Hd) as (m & Hmax & Hrun).
  rewrite Hrun in Hstep. injection Hstep as <-.
  rewrite (rescaled_padded base d m i Hmax).
  pose proof (padded_length base d Hd) as Hlen.
  change NaN with ((fun ab => fadd (fst ab) (snd ab)) (NaN, NaN)) at 1.
  rewrite map_nth, combine_nth by (rewrite length_map; congruence).
  cbn [fst snd]. f_equal.
  rewrite (nth_indep _ NaN (fdiv (of_Z 0) m)) by (rewrite length_map; lia).
  apply (map_nth (fun x => fdiv x m)).
Qed.

(** The loop returns for inputs that are not longer than [base], and each
    position of the result accumulates the rescaled inputs in order. *)
Lemma joint_loop_spec (base : nat) (data : list (list Qc)) :
  (1 <= base)%nat ->
  Forall (fun d => (length d <= base)%nat) data ->
  forall res, length res = base ->
    exists r,
      joint_loop base data res = Ok r /\
      length r = base /\
      forall i, (i < base)%nat ->
        nth i r NaN
        = fold_left (fun acc d => fadd acc (rescaled base d i)) data (nth i res NaN).
Proof.
  intros Hbase. induction 1 as [|d data Hd _ IH]; intros res Hres; cbn [joint_loop].
  - exists res. repeat split; assumption.
  - destruct (joint_step base res d) as [res'|e] eqn:Hst; cbn [bind].
    + pose proof (joint_step_length _ _ _ _ Hst) as Hlen'.
      destruct (IH res') as (r & Hloop & Hlen & Hnth); [congruence|].
      exists r. split; [exact Hloop|]. split; [exact Hlen|].
      intros i Hi. rewrite (Hnth i Hi). cbn [fold_left].
      rewrite (joint_step_nth base res res' d i Hbase Hres Hd Hst Hi).
      reflexivity.
    + destruct (joint_step_padded base res d Hbase Hres Hd) as (m & _ & Hrun).
      congruence.
Qed.

(** [joint] on a non-empty first input and later inputs that are not
    longer. *)
Lemma joint_spec (d0 : list Qc) (rest : list (list Qc)) :
  d0 <> [] ->
  Forall (fun d => (length d <= length d0)%nat) rest ->
  exists r,
    joint (d0 :: rest) = Ok r /\
    length r = length d0 /\
    forall i, (i < length d0)%nat ->
      nth i r NaN
      = fold_left (fun acc d => fadd acc (rescaled (length d0) d i))
                  (d0 :: rest) (Fin (of_Z 0)).
Proof.
  intros Hne Hrest. unfold joint.
  assert (Hbase : (1 <= length d0)%nat)
    by (destruct d0; [congruence | cbn; lia]).
  destruct (joint_loop_spec (length d0) (d0 :: rest) Hbase
              (Forall_cons _ (Nat.le_refl _) Hrest)
              (repeat (Fin (of_Z 0)) (length d0)) (repeat_length _ _))
    as (r & Hrun & Hlen & Hnth).
  exists r. split; [exact Hrun|]. split; [exact Hlen|].
  intros i Hi. rewrite (Hnth i Hi). f_equal.
  apply nth_repeat_lt. exact Hi.
Qed.

Lemma of_Z_two : of_Z 2 = (1 + 1)%Qc.
Proof. apply Qc_is_canon. reflexivity. Qed.

Lemma padded_full (d : list Qc) : padded (length d) d = d.
Proof. unfold padded. rewrite Nat.sub_diag. apply app_nil_r. Qed.

Lemma np_max_positive (s : list Qc) (m : Qc) :
  Forall (fun x => (0 < x)%Qc) s -> np_max s = Ok m -> (0 < m)%Qc.
Proof.
  intros Hpos. destruct s as [|x tl]; [discriminate|].
  intros [= <-]. rewrite Forall_forall in Hpos. apply Hpos, fold_Qcmax_in.
Qed.

End JointFacts.

Example joint_ramp_twice :
  Joint.joint [Joint.ramp; Joint.ramp]
  = Ok [Fin (Q2Qc (1 # 2)); Fin (of_Z 1); Fin (of_Z 2)].
Proof.
  unfold Joint.joint, Joint.ramp. cbn. repeat f_equal; apply Qc_is_canon; reflexivity.
Qed.

(** C10. When a sequence after the first is strictly longer than the first,
    [joint] raises: only a sequence strictly shorter than the first is
    resized, one that is not enters the addition with its own length, and a
    longer operand cannot be added to the result. *)
Theorem joint_longer_input_raises (d0 : list Qc) (rest : list (list Qc)) :
  Exists (fun d => (length d0 < length d)%nat) rest ->
  Joint.joint (d0 :: rest) = Raise ValueError /\
  forall res d, (length d0 <= length d)%nat ->
    Joint.joint_step (length d0) res d
    = (m <- Joint.np_max d ;; Joint.iadd res (map (fun x => Joint.fdiv x m) d)).
Proof.
  intros Hlong. split.
  - destruct d0 as [|x0 d0]; [reflexivity|].
    unfold Joint.joint. apply joint_loop_longer.
    + cbn [length]. lia.
    + apply Exists_cons_tl. exact Hlong.
    + apply repeat_length.
  - intros res d Hd. unfold Joint.joint_step.
    destruct (Nat.ltb_spec (length d) (length d0)); [lia | reflexivity].
Qed.

Lemma joint_longer_input_raises_witness :
  Exists (fun d => (length [of_Z 1] < length d)%nat) [[of_Z 1; of_Z 2]] /\
  Joint.joint Joint.short_then_long = Raise ValueError.
Proof.
  assert (Hlong : Exists (fun d => (length [of_Z 1] < length d)%nat)
                         [[of_Z 1; of_Z 2]])
    by (apply Exists_cons_hd; cbn; lia).
  split; [exact Hlong|].
  exact (proj1 (joint_longer_input_raises [of_Z 1] [[of_Z 1; of_Z 2]] Hlong)).
Defined.

(** C6 fails as stated when the first input is empty: no later member is
    longer than it, yet [np.max] raises [ValueError] on the empty array and
    [joint] returns no sequence. *)
Lemma joint_empty_first_raises :
  Forall (fun d : list Qc => (length d <= length (@nil Qc))%nat) [] /\
  Joint.joint Joint.empty_first = Raise ValueError /\
  ~ (exists r, Joint.joint Joint.empty_first = Ok r /\ length r = 0%nat).
Proof.
  split; [constructor|]. split; [reflexivity|].
  intros (r & Hr & _). discriminate Hr.
Qed.

(** C6, amended. For a non-empty first input and later inputs that are not
    longer, [joint] returns a sequence of the length of the first input; at
    every position it holds the sum, over the inputs in order, of the
    zero-padded input divided by the maximum of the padded input.  For a
    sequence [s] of positive values, [joint([s, s])] is [2 * (s / max(s))]
    elementwise: a sum, not an average. *)
Theorem joint_sums_rescaled_inputs (d0 : list Qc) (rest : list (list Qc)) :
  d0 <> [] ->
  Forall (fun d => (length d <= length d0)%nat) rest ->
  (exists r,
     Joint.joint (d0 :: rest) = Ok r /\
     length r = length d0 /\
     forall i, (i < length d0)%nat ->
       nth i r NaN
       = fold_left (fun acc d => Joint.fadd acc (Joint.rescaled (length d0) d i))
                   (d0 :: rest) (Fin (of_Z 0))) /\
  (Forall (fun x => (0 < x)%Qc) d0 ->
   exists m,
     Joint.np_max d0 = Ok m /\
     Joint.joint [d0; d0] = Ok (map (fun x => Fin (of_Z 2 * (x / m))%Qc) d0)).
Proof.
  intros Hne Hrest. split; [apply joint_spec; assumption|].
  intros Hpos.
  destruct (joint_spec d0 [d0] Hne) as (r & Hrun & Hlen & Hnth);
    [repeat constructor|].
  destruct (Joint.np_max d0) as [m|e] eqn:Hmax;
    [|destruct d0; [congruence | discriminate]].
  exists m. split; [reflexivity|]. rewrite Hrun. f_equal.
  pose proof (np_max_positive d0 m Hpos Hmax) as Hm.
  apply (nth_ext _ _ NaN NaN); [rewrite length_map; exact Hlen|].
  intros i Hi. rewrite Hlen in Hi. rewrite (Hnth i Hi). cbn [fold_left].
  assert (Hresc : Joint.rescaled (length d0) d0 i
                  = Fin (nth i d0 (of_Z 0) / m)%Qc).
  { rewrite (rescaled_padded (length d0) d0 m i)
      by (rewrite padded_full; exact Hmax).
    rewrite padded_full. apply fdiv_positive. exact Hm. }
  rewrite Hresc. cbn [Joint.fadd].
  rewrite (nth_indep _ NaN (Fin (of_Z 2 * (of_Z 0 / m))%Qc))
    by (rewrite length_map; exact Hi).
  rewrite (map_nth (fun x => Fin (of_Z 2 * (x / m))%Qc)).
  f_equal. rewrite of_Z_two. change (of_Z 0) with 0%Qc. ring.
Qed.

Lemma joint_sums_rescaled_inputs_witness :
  Joint.ramp <> [] /\
  Forall (fun d => (length d <= length Joint.ramp)%nat) [Joint.ramp] /\
  exists r,
    Joint.joint [Joint.ramp; Joint.ramp] = Ok r /\ length r = 3%nat.
Proof.
  assert (Hne : Joint.ramp <> []) by discriminate.
  assert (Hrest : Forall (fun d => (length d <= length Joint.ramp)%nat) [Joint.ramp])
    by (repeat constructor).
  split; [exact Hne|]. split; [exact Hrest|].
  destruct (proj1 (joint_sums_rescaled_inputs Joint.ramp [Joint.ramp] Hne Hrest))
    as (r & Hrun & Hlen & _).
  exists r. split; [exact Hrun | exact Hlen].
Defined.

(** * Further properties of the code *)

(** ** Change point detector: spacing and origin of the markers *)

Section ChangePointMarkers.

Import ChangePoints.

Variable A : Type.
Variable reaches_cutoff : A -> bool.

Lemma apart_snoc (l : list Z) (x : Z) :
  StronglySorted apart l -> Forall (fun c => apart c x) l ->
  StronglySorted apart (l ++ [x]).
Proof.
  induction 1 as [|c l Hs IH Hc]; intros Hx; cbn.
  - repeat constructor.
  - inversion Hx; subst. constructor; [auto|].
    apply Forall_app; split; [assumption | repeat constructor; assumption].
Qed.

Lemma scan_apart (rest : list A) :
  forall i curr_cp cp,
    0 <= curr_cp < i ->
    StronglySorted apart cp ->
    Forall (fun c => apart c curr_cp) cp ->
    StronglySorted apart (scan reaches_cutoff rest i curr_cp cp) /\
    Forall (fun c => apart c (i + Z.of_nat (length rest) - 1))
           (scan reaches_cutoff rest i curr_cp cp).
Proof.
  unfold apart, shot_length.
  induction rest as [|x rest IH]; intros i curr_cp cp Hcur Hs Hb; cbn [scan].
  - split; [assumption|].
    eapply Forall_impl; [|exact Hb]. cbn; intros; lia.
  - replace (i + Z.of_nat (length (x :: rest)) - 1)
      with ((i + 1) + Z.of_nat (length rest) - 1) by (cbn [length]; lia).
    destruct (reaches_cutoff x).
    + unfold shot_length. destruct (Z.ltb_spec 30 (i - curr_cp)).
      * apply IH; [lia | |].
        -- apply apart_snoc; [assumption|].
           eapply Forall_impl; [|exact Hb]. unfold apart, shot_length; cbn; intros; lia.
        -- apply Forall_app; split.
           ++ eapply Forall_impl; [|exact Hb]. cbn; intros; lia.
           ++ repeat constructor; lia.
      * apply IH; [lia | assumption |].
        eapply Forall_impl; [|exact Hb]. cbn; intros; lia.
    + apply IH; [lia | assumption | assumption].
Qed.

Lemma scan_crossings (data rest : list A) :
  forall i curr_cp cp,
    0 <= i ->
    (forall k x, nth_error rest k = Some x ->
                 nth_error data (Z.to_nat i + k) = Some x) ->
    (curr_cp = 0 \/ crossing reaches_cutoff data curr_cp) ->
    Forall (fun c => c = 0 \/ crossing reaches_cutoff data c) cp ->
    Forall (fun c => c = 0 \/ crossing reaches_cutoff data c)
           (scan reaches_cutoff rest i curr_cp cp).
Proof.
  induction rest as [|x rest IH]; intros i curr_cp cp Hi Hrest Hcur Hcp;
    cbn [scan]; [assumption|].
  assert (Htail : forall k y, nth_error rest k = Some y ->
                    nth_error data (Z.to_nat (i + 1) + k) = Some y).
  { intros k y Hk. replace (Z.to_nat (i + 1) + k)%nat with (Z.to_nat i + S k)%nat by lia.
    apply Hrest. exact Hk. }
  destruct (reaches_cutoff x) eqn:Hx.
  - apply IH; [lia | exact Htail | |].
    + right. exists x. split; [|exact Hx].
      rewrite <- (Nat.add_0_r (Z.to_nat i)). apply Hrest. reflexivity.
    + destruct (shot_length <? i - curr_cp); [|assumption].
      apply Forall_app; split; [assumption|].
      constructor; [exact Hcur | constructor].
  - apply IH; [lia | exact Htail | assumption | assumption].
Qed.

End ChangePointMarkers.

(** X1. Whenever [change_points] returns, its result is strictly ascending,
    starts with index [0], ends with index [len(data) - 1] and has at least
    two elements. *)
Theorem change_points_result_shape (A : Type) (reaches_cutoff : A -> bool)
  (data : list A) (cp : list Z) :
  ChangePoints.change_points_with reaches_cutoff data = Ok cp ->
  StronglySorted Z.lt cp /\
  hd_error cp = Some 0 /\
  last_Z cp = Z.of_nat (length data) - 1 /\
  (2 <= length cp)%nat.
Proof. apply change_points_sound. Qed.

Lemma change_points_result_shape_witness :
  ChangePoints.change_points
    (repeat 0 31 ++ [100] ++ repeat 0 40 ++ [100; 0; 0]) = Ok [0; 31; 74] /\
  StronglySorted Z.lt [0; 31; 74] /\
  hd_error [0; 31; 74] = Some 0 /\
  last_Z [0; 31; 74] = Z.of_nat 75 - 1 /\
  (2 <= length [0; 31; 74])%nat.
Proof.
  assert (Hrun : ChangePoints.change_points
                   (repeat 0 31 ++ [100] ++ repeat 0 40 ++ [100; 0; 0])
                 = Ok [0; 31; 74]) by (vm_compute; reflexivity).
  split; [exact Hrun|].
  exact (change_points_result_shape Z _ _ _ Hrun).
Defined.

(** The leading [0] is put in front of the recorded markers without regard
    to the spacing: it can lie close to the first of them. *)
Example change_points_close_start :
  ChangePoints.change_points
    (repeat 0 5 ++ [100] ++ repeat 0 34 ++ [100; 0; 0; 0]) = Ok [0; 5; 43].
Proof. vm_compute. reflexivity. Qed.

(** X2. In a result of [change_points] every change point from the third on
    lies more than 30 indices after its predecessor, and more than 30 after
    every change point but the first; the second change point may lie
    anywhere after the leading [0].  Every change point is index [0], the
    last index, or an index at which the data reaches the cut-off. *)
Theorem change_points_markers (A : Type) (reaches_cutoff : A -> bool)
  (data : list A) (cp : list Z) :
  ChangePoints.change_points_with reaches_cutoff data = Ok cp ->
  StronglySorted ChangePoints.apart (tl cp) /\
  Forall (fun c => c = 0 \/ c = Z.of_nat (length data) - 1
                   \/ ChangePoints.crossing reaches_cutoff data c) cp.
Proof.
  destruct data as [|a tl0]; [discriminate|].
  unfold ChangePoints.change_points_with, ChangePoints.bound_ends.
  remember (Z.of_nat (length (a :: tl0))) as len eqn:Hlen.
  destruct (scan_apart A reaches_cutoff tl0 1 0 []) as [Hs Hb];
    [lia | constructor | constructor |].
  replace (1 + Z.of_nat (length tl0) - 1) with (len - 1) in Hb
    by (subst len; cbn [length]; lia).
  assert (Hc : Forall (fun c => c = 0 \/ ChangePoints.crossing reaches_cutoff (a :: tl0) c)
                      (ChangePoints.scan reaches_cutoff tl0 1 0 [])).
  { apply scan_crossings; [lia | | left; reflexivity | constructor].
    intros k x Hk. exact Hk. }
  destruct (scan_invariant A reaches_cutoff tl0 1 0 []) as [_ Hrange];
    [lia | constructor | constructor |].
  replace (1 + Z.of_nat (length tl0) - 1) with (len - 1) in Hrange
    by (subst len; cbn [length]; lia).
  destruct (ChangePoints.scan reaches_cutoff tl0 1 0 []) as [|c0 cs] eqn:Hscan;
    [discriminate|].
  intros Hret.
  assert (Hwiden : forall l,
             Forall (fun c => c = 0 \/ ChangePoints.crossing reaches_cutoff (a :: tl0) c) l ->
             Forall (fun c => c = 0 \/ c = len - 1
                              \/ ChangePoints.crossing reaches_cutoff (a :: tl0) c) l).
  { intros l Hl. eapply Forall_impl; [|exact Hl]. cbn. intros c [H0|Hx]; auto. }
  destruct (Z.eqb_spec c0 0) as [->|Hne]; cbn [negb app] in Hret.
  - assert (Hlast : last_Z (0 :: cs) <> len - 1).
    { pose proof (last_Z_bound 0 (len - 1) (0 :: cs)) as Hl.
      specialize (Hl ltac:(discriminate) Hrange). lia. }
    apply Z.eqb_neq in Hlast. rewrite Hlast in Hret. cbn [negb] in Hret.
    injection Hret as <-. split.
    + cbn [app tl].
      inversion Hs; subst. inversion Hb; subst.
      apply apart_snoc; assumption.
    + apply (Forall_app _ (0 :: cs)); split; [apply Hwiden; exact Hc|].
      constructor; [right; left; reflexivity | constructor].
  - assert (Hrange' : Forall (fun c => 0 <= c < len - 1) (0 :: c0 :: cs)).
    { constructor; [|exact Hrange]. inversion Hrange; subst. lia. }
    assert (Hlast : last_Z (0 :: c0 :: cs) <> len - 1).
    { pose proof (last_Z_bound 0 (len - 1) (0 :: c0 :: cs)) as Hl.
      specialize (Hl ltac:(discriminate) Hrange'). lia. }
    apply Z.eqb_neq in Hlast. rewrite Hlast in Hret. cbn [negb] in Hret.
    injection Hret as <-. split.
    + cbn [app tl].
      apply (apart_snoc (c0 :: cs)); assumption.
    + apply (Forall_app _ (0 :: c0 :: cs)); split.
      * constructor; [left; reflexivity | apply Hwiden; exact Hc].
      * constructor; [right; left; reflexivity | constructor].
Qed.

Lemma change_points_markers_witness :
  ChangePoints.change_points
    (repeat 0 31 ++ [100] ++ repeat 0 40 ++ [100; 0; 0]) = Ok [0; 31; 74] /\
  StronglySorted ChangePoints.apart [31; 74].
Proof.
  assert (Hrun : ChangePoints.change_points
                   (repeat 0 31 ++ [100] ++ repeat 0 40 ++ [100; 0; 0])
                 = Ok [0; 31; 74]) by (vm_compute; reflexivity).
  split; [exact Hrun|].
  exact (proj1 (change_points_markers Z _ _ _ Hrun)).
Defined.

(** X3. A non-empty sequence of at most 31 elements never yields a result:
    no marker can be more than 30 indices behind the index being read, so
    the list of change points stays empty and [cp[0]] raises
    [IndexError]. *)
Theorem change_points_needs_32_elements (A : Type) (reaches_cutoff : A -> bool)
  (data : list A) :
  (1 <= length data <= 31)%nat ->
  ChangePoints.change_points_with reaches_cutoff data = Raise IndexError.
Proof. apply change_points_short_raises. Qed.

Lemma change_points_needs_32_elements_witness :
  (1 <= length (repeat 7 31) <= 31)%nat /\
  ChangePoints.change_points (repeat 7 31) = Raise IndexError.
Proof.
  assert (Hlen : (1 <= length (repeat 7 31) <= 31)%nat) by (cbn; lia).
  split; [exact Hlen|].
  exact (change_points_needs_32_elements Z _ (repeat 7 31) Hlen).
Defined.

(** ** Event serializer: missing labels *)

Section SerializerLabels.

Import Serializer.

Variable V : Type.
Variable features : list string.

Lemma group_loop_labelled (i : nat) (f : string) (seq : list V) :
  nth_error features i = Some f ->
  forall time_stamp li2, returns (group_loop features i seq time_stamp li2).
Proof.
  intros Hf. induction seq as [|each rest IH]; intros time_stamp li2; cbn [group_loop].
  - eexists; reflexivity.
  - rewrite Hf. apply IH.
Qed.

Lemma group_loop_unlabelled (i : nat) (each : V) (rest : list V) :
  nth_error features i = None ->
  forall time_stamp li2,
    group_loop features i (each :: rest) time_stamp li2 = Raise IndexError.
Proof. intros Hf time_stamp li2. cbn [group_loop]. rewrite Hf. reflexivity. Qed.

Lemma groups_loop_outcome (copy : Q) (rest : list (list V)) :
  forall i time_stamp li2,
    (labelled_from features i rest ->
     returns (groups_loop features copy i rest time_stamp li2)) /\
    (~ labelled_from features i rest ->
     groups_loop features copy i rest time_stamp li2 = Raise IndexError).
Proof.
  induction rest as [|seq rest IH]; intros i time_stamp li2; cbn [groups_loop].
  - split; [intros _; eexists; reflexivity|].
    intros Hno. exfalso. apply Hno. intros [|k] s; discriminate.
  - assert (Hshift : labelled_from features (S i) rest <->
                     (forall k s, nth_error (seq :: rest) (S k) = Some s ->
                                  s <> [] -> (i + S k < length features)%nat)).
    { unfold labelled_from. split; intros H k s Hk Hs;
        pose proof (H k s Hk Hs); lia. }
    destruct seq as [|each seq'].
    + cbn [group_loop bind snd].
      destruct (IH (S i) copy li2) as [Hyes Hno]. split.
      * intros Hlab. apply Hyes, Hshift. intros k s Hk Hs. apply (Hlab (S k) s Hk Hs).
      * intros Hnot. apply Hno. intros Hlab. apply Hnot.
        intros [|k] s Hk Hs.
        -- cbn in Hk. injection Hk as <-. congruence.
        -- apply (proj1 Hshift Hlab k s Hk Hs).
    + destruct (nth_error features i) as [f|] eqn:Hf.
      * destruct (group_loop_labelled i f (each :: seq') Hf time_stamp li2)
          as [st Hst].
        rewrite Hst. cbn [bind].
        destruct (IH (S i) copy (snd st)) as [Hyes Hno]. split.
        -- intros Hlab. apply Hyes, Hshift. intros k s Hk Hs.
           apply (Hlab (S k) s Hk Hs).
        -- intros Hnot. apply Hno. intros Hlab. apply Hnot.
           intros [|k] s Hk Hs.
           ++ rewrite Nat.add_0_r. apply nth_error_Some. congruence.
           ++ apply (proj1 Hshift Hlab k s Hk Hs).
      * rewrite (group_loop_unlabelled i each seq' Hf). cbn [bind]. split.
        -- intros Hlab. exfalso.
           specialize (Hlab 0%nat (each :: seq') eq_refl ltac:(discriminate)).
           apply nth_error_None in Hf. lia.
        -- reflexivity.
Qed.

Lemma group_loop_error (i : nat) (seq : list V) (e : exn) :
  forall time_stamp li2,
    group_loop features i seq time_stamp li2 = Raise e -> e = IndexError.
Proof.
  induction seq as [|each rest IH]; intros time_stamp li2; cbn [group_loop];
    [discriminate|].
  destruct (nth_error features i); [apply IH | intros [= <-]; reflexivity].
Qed.

Lemma groups_loop_error (copy : Q) (rest : list (list V)) (e : exn) :
  forall i time_stamp li2,
    groups_loop features copy i rest time_stamp li2 = Raise e -> e = IndexError.
Proof.
  induction rest as [|seq rest IH]; intros i time_stamp li2; cbn [groups_loop];
    [discriminate|].
  destruct (group_loop features i seq time_stamp li2) as [st|e'] eqn:Hg;
    cbn [bind].
  - apply IH.
  - intros [= <-]. eapply group_loop_error. exact Hg.
Qed.

Lemma groups_loop_index_error (copy : Q) (rest : list (list V)) :
  forall i time_stamp li2,
    groups_loop features copy i rest time_stamp li2 = Raise IndexError ->
    exists k s, nth_error rest k = Some s /\ s <> [] /\
                (length features <= i + k)%nat.
Proof.
  induction rest as [|seq rest IH]; intros i time_stamp li2; cbn [groups_loop];
    [discriminate|].
  destruct seq as [|each seq'].
  - cbn [group_loop bind snd]. intros Hraise.
    destruct (IH _ _ _ Hraise) as (k & s & Hk & Hs & Hlen).
    exists (S k), s. repeat split; [exact Hk | exact Hs | lia].
  - destruct (nth_error features i) as [f|] eqn:Hf.
    + destruct (group_loop_labelled i f (each :: seq') Hf time_stamp li2)
        as [st Hst].
      rewrite Hst. cbn [bind]. intros Hraise.
      destruct (IH _ _ _ Hraise) as (k & s & Hk & Hs & Hlen).
      exists (S k), s. repeat split; [exact Hk | exact Hs | lia].
    + intros _. exists 0%nat, (each :: seq').
      repeat split; [discriminate|].
      apply nth_error_None in Hf. lia.
Qed.

End SerializerLabels.

(** X4. [to_json] raises [IndexError] exactly when some sequence that has
    an element has no label at its position; a sequence without elements
    needs none.  The error comes from the lookup [features[i]] in the loop
    that builds the records, which runs before the output file is
    opened. *)
Theorem to_json_needs_labels (V : Type) (now : Q) (lists : list (list V))
  (features : list string) :
  Serializer.to_json now lists features = Raise IndexError <->
  exists i s, nth_error lists i = Some s /\ s <> [] /\
              (length features <= i)%nat.
Proof.
  unfold Serializer.to_json. split.
  - intros Hraise.
    destruct (groups_loop_index_error V features now lists 0%nat now [] Hraise)
      as (k & s & Hk & Hs & Hlen).
    exists k, s. repeat split; assumption.
  - intros (i & s & Hi & Hs & Hlen).
    apply (groups_loop_outcome V features now lists 0%nat now []).
    intros Hlab. specialize (Hlab i s Hi Hs). cbn [Nat.add] in Hlab. lia.
Qed.

(** ** Video extractors: distances and retained state *)

Lemma wrap_int16_small (z : Z) : - 2 ^ 15 <= z < 2 ^ 15 -> wrap_int16 z = z.
Proof.
  intros Hz. unfold wrap_int16, wrap_signed.
  change (2 ^ (16 - 1)) with (2 ^ 15). rewrite Z.mod_small; lia.
Qed.

Lemma zsum_abs_nonneg {X : Type} (g : X -> Z) (l : list X) :
  0 <= zsum (map (fun x => Z.abs (g x)) l).
Proof.
  induction l as [|x l IH]; [cbn; lia|].
  cbn [map]. rewrite zsum_cons. lia.
Qed.

Lemma zsum_abs_diff_same (l : list Z) :
  zsum (map (fun ab => Z.abs (fst ab - snd ab)) (combine l l)) = 0.
Proof.
  induction l as [|x l IH]; [reflexivity|].
  cbn [combine map fst snd]. rewrite zsum_cons, IH. lia.
Qed.

Lemma zsum_abs_diff_sym (l1 : list Z) :
  forall l2,
    zsum (map (fun ab => Z.abs (fst ab - snd ab)) (combine l1 l2))
    = zsum (map (fun ab => Z.abs (fst ab - snd ab)) (combine l2 l1)).
Proof.
  induction l1 as [|x l1 IH]; intros [|y l2]; try reflexivity.
  cbn [combine map fst snd]. rewrite !zsum_cons, IH. lia.
Qed.

Lemma zsum_abs_diff_bound (l1 : list Z) :
  forall l2,
    Forall (fun x => 0 <= x) l1 -> Forall (fun x => 0 <= x) l2 ->
    zsum (map (fun ab => Z.abs (fst ab - snd ab)) (combine l1 l2))
    <= zsum l1 + zsum l2.
Proof.
  induction l1 as [|x l1 IH]; intros [|y l2] H1 H2; cbn [combine map].
  - cbn; lia.
  - apply zsum_nonneg in H2. cbn [zsum fold_right] in *. lia.
  - apply zsum_nonneg in H1. cbn [zsum fold_right] in *. lia.
  - inversion H1; subst. inversion H2; subst.
    cbn [fst snd]. rewrite !zsum_cons. specialize (IH l2 ltac:(assumption) ltac:(assumption)).
    lia.
Qed.

Lemma zsum_abs_diff_zeros (l : list Z) :
  Forall (fun x => 0 <= x) l ->
  zsum (map (fun ab => Z.abs (fst ab - snd ab)) (combine l (repeat 0 (length l))))
  = zsum l.
Proof.
  induction 1 as [|x l Hx _ IH]; [reflexivity|].
  cbn [length repeat combine map fst snd]. rewrite !zsum_cons, IH. lia.
Qed.

Section DistanceFacts.

Import Video.

Variables height width : nat.

Lemma combine_samples_range (l1 : list Z) :
  forall l2,
    Forall (fun x => 0 <= x <= 255) l1 -> Forall (fun x => 0 <= x <= 255) l2 ->
    Forall (fun ab => 0 <= fst ab <= 255 /\ 0 <= snd ab <= 255) (combine l1 l2).
Proof.
  induction l1 as [|x l1 IH]; intros [|y l2] H1 H2; cbn [combine];
    try constructor.
  - inversion H1; inversion H2; subst. cbn [fst snd]. lia.
  - inversion H1; inversion H2; subst. apply IH; assumption.
Qed.

(** Widening to [np.int16] makes the subtraction and the absolute value
    exact: only the accumulation in [np.uint32] can lose anything. *)
Lemma frame_distance_unfold (frame2 frame : Frame) :
  frame_distance height width frame2 frame
  = sample_differences height width frame2 frame mod 2 ^ 32.
Proof.
  unfold frame_distance, sample_differences, wrap_uint32, wrap_unsigned.
  f_equal. f_equal. apply map_ext_in. intros [a b] Hin.
  pose proof (combine_samples_range _ _ (samples_range height width frame2)
                (samples_range height width frame)) as Hr.
  rewrite Forall_forall in Hr. specialize (Hr _ Hin). cbn [fst snd] in *.
  rewrite (wrap_int16_small (a - b)) by lia.
  apply wrap_int16_small. lia.
Qed.

Lemma sample_differences_range (frame2 frame : Frame) :
  0 <= sample_differences height width frame2 frame
    <= Z.of_nat width * Z.of_nat height * 3 * 255.
Proof.
  unfold sample_differences. split; [apply zsum_abs_nonneg|].
  transitivity (255 * Z.of_nat (length (combine (samples height width frame2)
                                                (samples height width frame)))).
  - rewrite <- (length_map (fun ab => Z.abs (fst ab - snd ab))).
    apply zsum_bounded. apply Forall_map.
    eapply Forall_impl;
      [|apply (combine_samples_range _ _ (samples_range height width frame2)
                 (samples_range height width frame))].
    cbn. intros [a b]; cbn [fst snd]; lia.
  - rewrite length_combine, !length_samples, Nat.min_id. lia.
Qed.

Lemma frame_distance_range (frame2 frame : Frame) :
  0 <= frame_distance height width frame2 frame < 2 ^ 32.
Proof.
  rewrite frame_distance_unfold. apply Z.mod_pos_bound. lia.
Qed.

(** *** The occupancy counts *)

Lemma frame_bins_range (f : Frame) :
  Forall (fun v => 0 <= v < Z.of_nat 512)
         (map bin_index (pixels height width f)).
Proof.
  apply Forall_map, Forall_forall. intros p _.
  pose proof (bin_index_range p). lia.
Qed.

Lemma frame_bins_shape (f : Frame) :
  frame_bins height width f
  = map (fun b => Z.of_nat (count_occ Z.eq_dec
                              (map bin_index (pixels height width f))
                              (Z.of_nat b)))
        (seq 0 512).
Proof.
  unfold frame_bins, bincount. f_equal. f_equal.
  change (Z.to_nat (BINLEN ^ 3)) with 512%nat.
  apply Nat.max_l. unfold bins_needed.
  pose proof (frame_bins_range f) as Hall.
  destruct (map bin_index (pixels height width f)) as [|x0 tl]; [lia|].
  inversion Hall; subst.
  assert (fold_left Z.max tl x0 < 512).
  { apply fold_max_bound; [lia|].
    eapply Forall_impl; [|eassumption]. cbn; intros; lia. }
  lia.
Qed.

Lemma frame_bins_length (f : Frame) : length (frame_bins height width f) = 512%nat.
Proof. rewrite frame_bins_shape, length_map, length_seq. reflexivity. Qed.

Lemma frame_bins_nonneg (f : Frame) :
  Forall (fun x => 0 <= x) (frame_bins height width f).
Proof.
  rewrite frame_bins_shape. apply Forall_map, Forall_forall.
  intros b _. apply Nat2Z.is_nonneg.
Qed.

Lemma frame_bins_sum (f : Frame) :
  zsum (frame_bins height width f) = Z.of_nat width * Z.of_nat height.
Proof.
  rewrite frame_bins_shape, (count_sum 512 _ (frame_bins_range f)).
  rewrite length_map, length_pixels. lia.
Qed.

(** *** The read loop of [histogram] *)

Lemma histogram_loop_acc (n : nat) :
  forall s counts li,
    histogram_loop height width n s counts li
    = li ++ histogram_loop height width n s counts [].
Proof.
  induction n as [|n IH]; intros s counts li; cbn [histogram_loop].
  - rewrite app_nil_r. reflexivity.
  - destruct (read s) as [[f|] s'];
      rewrite IH, (IH s' _ ([] ++ _)); cbn [app]; rewrite <- app_assoc; reflexivity.
Qed.

Lemma histogram_loop_length (n : nat) :
  forall s counts, length (histogram_loop height width n s counts []) = n.
Proof.
  induction n as [|n IH]; intros s counts; cbn [histogram_loop]; [reflexivity|].
  destruct (read s) as [[f|] s'];
    rewrite histogram_loop_acc, length_app, IH; reflexivity.
Qed.

Lemma histogram_loop_nth (n : nat) :
  forall s counts k, (k < n)%nat ->
    nth_error (histogram_loop height width n s counts []) k
    = Some (histogram_entry height width
              (retained_counts height width counts (firstn k s))
              (nth k s None)).
Proof.
  induction n as [|n IH]; intros s counts k Hk; [lia|].
  cbn [histogram_loop].
  destruct s as [|fr s']; cbn [read].
  - rewrite histogram_loop_acc. destruct k as [|k]; [reflexivity|].
    cbn [app nth_error]. rewrite IH by lia.
    rewrite !firstn_nil. destruct k; reflexivity.
  - destruct fr as [f|]; rewrite histogram_loop_acc;
      (destruct k as [|k]; [reflexivity|]);
      cbn [app nth_error nth firstn retained_counts]; apply IH; lia.
Qed.

Lemma bins_distance_nonneg (tmp counts : list Z) : 0 <= bins_distance tmp counts.
Proof. unfold bins_distance. apply zsum_abs_nonneg. Qed.

Lemma retained_counts_cases (counts : list Z) (reads : list (option Frame)) :
  retained_counts height width counts reads = counts \/
  exists g, retained_counts height width counts reads = frame_bins height width g.
Proof.
  revert counts. induction reads as [|[f|] reads IH]; intros counts;
    cbn [retained_counts].
  - left. reflexivity.
  - right. destruct (IH (frame_bins height width f)) as [->|Hg];
      [exists f; reflexivity | exact Hg].
  - apply IH.
Qed.

Lemma bins_distance_zeros (f : Frame) :
  bins_distance (frame_bins height width f) (repeat 0 (Z.to_nat (BINLEN ^ 3)))
  = Z.of_nat width * Z.of_nat height.
Proof.
  unfold bins_distance. change (Z.to_nat (BINLEN ^ 3)) with 512%nat.
  rewrite <- (frame_bins_length f).
  rewrite zsum_abs_diff_zeros by apply frame_bins_nonneg.
  apply frame_bins_sum.
Qed.

Lemma bins_distance_bound (f g : Frame) :
  bins_distance (frame_bins height width f) (frame_bins height width g)
  <= 2 * (Z.of_nat width * Z.of_nat height).
Proof.
  unfold bins_distance.
  pose proof (zsum_abs_diff_bound _ _ (frame_bins_nonneg f) (frame_bins_nonneg g)) as Hb.
  rewrite !frame_bins_sum in Hb. lia.
Qed.

End DistanceFacts.

(** X5. [contrast] returns exactly when the first read decodes.  Its result
    then has one value for every declared frame but the first, a value is
    [-1] exactly where the read failed, and every other value is
    non-negative. *)
Theorem contrast_dense (height width : nat) (video : Video.FrameSource) :
  (returns (Video.contrast height width video)
   <-> exists f0, Video.read_at video 0 = Some f0) /\
  forall li, Video.contrast height width video = Ok li ->
    length li = (Video.frame_count video - 1)%nat /\
    forall k, (k < Video.frame_count video - 1)%nat ->
      -1 <= nth k li 0 /\
      (nth k li 0 = -1 <-> Video.read_at video (S k) = None).
Proof.
  destruct video as [fc [|[f0|] s]]; unfold Video.contrast, Video.read_at;
    cbn [Video.stream Video.frame_count Video.read nth].
  - split; [|discriminate].
    split; [intros [li Hli]; discriminate | intros [f Hf]; discriminate].
  - split; [split; [intros _; exists f0; reflexivity | intros _; eexists; reflexivity]|].
    intros li [= <-]. split; [apply contrast_loop_length|].
    intros k Hk.
    pose proof (contrast_loop_nth height width _ s f0 k Hk) as Hnth.
    apply (nth_error_nth _ _ 0) in Hnth. rewrite Hnth.
    destruct (nth k s None) as [f2|]; cbn [Video.contrast_entry].
    + pose proof (frame_distance_range height width f2
                    (Video.last_decoded f0 (firstn k s))) as Hr.
      split; [lia|]. split; [lia | discriminate].
    + split; [lia|]. split; reflexivity.
  - split; [|discriminate].
    split; [intros [li Hli]; discriminate | intros [f Hf]; discriminate].
Qed.

(** X6. When [width * height * 3 * 255] is below [2^32] the distance that
    [contrast] computes between two frames is the exact sum of the absolute
    differences of their samples: the widening to 16-bit signed integers
    makes the subtraction exact and the accumulator does not wrap. *)
Theorem contrast_distance_exact (height width : nat) (frame2 frame : Video.Frame) :
  Z.of_nat width * Z.of_nat height * 3 * 255 < 2 ^ 32 ->
  Video.frame_distance height width frame2 frame
  = Video.sample_differences height width frame2 frame.
Proof.
  intros Hfit. rewrite frame_distance_unfold.
  pose proof (sample_differences_range height width frame2 frame) as Hr.
  apply Z.mod_small. lia.
Qed.

Lemma contrast_distance_exact_witness :
  Z.of_nat 2 * Z.of_nat 2 * 3 * 255 < 2 ^ 32 /\
  Video.frame_distance 2 2 Video.white_frame Video.dark_frame = 3036.
Proof.
  assert (Hfit : Z.of_nat 2 * Z.of_nat 2 * 3 * 255 < 2 ^ 32) by (cbn; lia).
  split; [exact Hfit|].
  rewrite (contrast_distance_exact 2 2 Video.white_frame Video.dark_frame Hfit).
  reflexivity.
Defined.

(** X7. On a capture whose decoded frames are all the same frame,
    [contrast] yields [0] wherever the read succeeded. *)
Theorem contrast_still_video (height width fc : nat) (f : Video.Frame)
  (s : list (option Video.Frame)) :
  Forall (fun fr => fr = None \/ fr = Some f) s ->
  exists li,
    Video.contrast height width (Video.mkSource fc (Some f :: s)) = Ok li /\
    forall k, (k < fc - 1)%nat ->
      nth k li 0 = match nth k s None with None => -1 | Some _ => 0 end.
Proof.
  intros Hstill. eexists. split; [reflexivity|].
  intros k Hk. cbn [Video.frame_count].
  pose proof (contrast_loop_nth height width _ s f k Hk) as Hnth.
  apply (nth_error_nth _ _ 0) in Hnth. rewrite Hnth.
  assert (Hlast : forall reads g,
             Forall (fun fr => fr = None \/ fr = Some f) reads -> g = f ->
             Video.last_decoded g reads = f).
  { induction reads as [|fr reads IH]; intros g Hall ->; [reflexivity|].
    inversion Hall as [|fr' reads' Hfr Hrest]; subst.
    destruct Hfr as [->| ->]; cbn [Video.last_decoded]; apply IH; auto. }
  rewrite Hlast; [| |reflexivity].
  - destruct (nth k s None) as [f2|] eqn:Hk2; [|reflexivity].
    cbn [Video.contrast_entry].
    assert (Hf2 : Some f2 = None \/ Some f2 = Some f).
    { rewrite Forall_forall in Hstill. apply Hstill. rewrite <- Hk2.
      apply nth_In. destruct (le_lt_dec (length s) k) as [Hle|Hlt]; [|exact Hlt].
      rewrite nth_overflow in Hk2 by exact Hle. discriminate. }
    destruct Hf2 as [Hbad|Hgood]; [discriminate|]. injection Hgood as ->.
    rewrite frame_distance_unfold. unfold Video.sample_differences.
    rewrite zsum_abs_diff_same. reflexivity.
  - apply Forall_forall. intros fr Hin. rewrite Forall_forall in Hstill.
    apply Hstill. rewrite <- (firstn_skipn k s). apply in_or_app. left. exact Hin.
Qed.

Lemma contrast_still_video_witness :
  Forall (fun fr => fr = None \/ fr = Some Video.dark_frame)
         [Some Video.dark_frame; None; Some Video.dark_frame] /\
  Video.contrast 2 2
    (Video.mkSource 4 [Some Video.dark_frame; Some Video.dark_frame; None;
                       Some Video.dark_frame]) = Ok [0; -1; 0].
Proof.
  assert (Hstill : Forall (fun fr => fr = None \/ fr = Some Video.dark_frame)
                          [Some Video.dark_frame; None; Some Video.dark_frame])
    by (repeat constructor; auto).
  split; [exact Hstill|].
  destruct (contrast_still_video 2 2 4 Video.dark_frame _ Hstill) as (li & Hrun & _).
  reflexivity.
Defined.

(** X8. [histogram] returns one value for every declared frame but the
    last; a value is [-1] exactly where the read failed, and a failed read
    leaves the retained counts untouched: the value of a decoded frame is
    the distance of its occupancy counts to those of the last frame that
    decoded before it, or to the initial zeros. *)
Theorem histogram_dense (height width : nat) (video : Video.FrameSource) :
  length (Video.histogram height width video) = (Video.frame_count video - 1)%nat /\
  forall k, (k < Video.frame_count video - 1)%nat ->
    nth_error (Video.histogram height width video) k
    = Some match Video.read_at video k with
           | None => -1
           | Some f =>
               Video.bins_distance (Video.frame_bins height width f)
                 (Video.retained_counts height width
                    (repeat 0 (Z.to_nat (Video.BINLEN ^ 3)))
                    (firstn k (Video.stream video)))
           end /\
    (nth k (Video.histogram height width video) 0 = -1
     <-> Video.read_at video k = None).
Proof.
  unfold Video.histogram, Video.read_at. split; [apply histogram_loop_length|].
  intros k Hk.
  pose proof (histogram_loop_nth height width _ (Video.stream video)
                (repeat 0 (Z.to_nat (Video.BINLEN ^ 3))) k Hk) as Hnth.
  rewrite Hnth. apply (nth_error_nth _ _ 0) in Hnth. rewrite Hnth.
  destruct (nth k (Video.stream video) None) as [f|]; cbn [Video.histogram_entry].
  - split; [reflexivity|].
    pose proof (bins_distance_nonneg (Video.frame_bins height width f)
                  (Video.retained_counts height width
                     (repeat 0 (Z.to_nat (Video.BINLEN ^ 3)))
                     (firstn k (Video.stream video)))) as Hr.
    split; [lia | discriminate].
  - split; [reflexivity|]. split; reflexivity.
Qed.

(** X9. Every value of [histogram] lies between [-1] and twice the number
    of pixels, and the value of a frame that decodes before any other is the
    number of pixels, [width * height]: it measures the distance to the
    all-zero initial counts, not a change. *)
Theorem histogram_value_range (height width : nat) (video : Video.FrameSource) :
  (forall k, (k < Video.frame_count video - 1)%nat ->
     -1 <= nth k (Video.histogram height width video) 0
        <= 2 * (Z.of_nat width * Z.of_nat height)) /\
  (forall k f, (k < Video.frame_count video - 1)%nat ->
     Video.read_at video k = Some f ->
     (forall j, (j < k)%nat -> Video.read_at video j = None) ->
     nth k (Video.histogram height width video) 0
     = Z.of_nat width * Z.of_nat height).
Proof.
  unfold Video.histogram, Video.read_at. split.
  - intros k Hk.
    pose proof (histogram_loop_nth height width _ (Video.stream video)
                  (repeat 0 (Z.to_nat (Video.BINLEN ^ 3))) k Hk) as Hnth.
    apply (nth_error_nth _ _ 0) in Hnth. rewrite Hnth.
    destruct (nth k (Video.stream video) None) as [f|]; cbn [Video.histogram_entry];
      [|lia].
    split; [pose proof (bins_distance_nonneg (Video.frame_bins height width f)
                          (Video.retained_counts height width
                             (repeat 0 (Z.to_nat (Video.BINLEN ^ 3)))
                             (firstn k (Video.stream video)))); lia|].
    destruct (retained_counts_cases height width
                (repeat 0 (Z.to_nat (Video.BINLEN ^ 3)))
                (firstn k (Video.stream video))) as [->|[g ->]].
    + rewrite bins_distance_zeros. lia.
    + apply bins_distance_bound.
  - intros k f Hk Hread Hnone.
    pose proof (histogram_loop_nth height width _ (Video.stream video)
                  (repeat 0 (Z.to_nat (Video.BINLEN ^ 3))) k Hk) as Hnth.
    apply (nth_error_nth _ _ 0) in Hnth. rewrite Hnth, Hread.
    cbn [Video.histogram_entry].
    assert (Hret : forall reads counts,
               Forall (fun fr => fr = None) reads ->
               Video.retained_counts height width counts reads = counts).
    { induction reads as [|fr reads IH]; intros counts Hall; [reflexivity|].
      inversion Hall; subst. cbn [Video.retained_counts]. apply IH. assumption. }
    rewrite Hret; [apply bins_distance_zeros|].
    apply Forall_forall. intros fr Hin.
    apply In_nth with (d := None) in Hin as (j & Hj & <-).
    rewrite length_firstn in Hj.
    rewrite nth_firstn. destruct (Nat.ltb_spec j k); [|lia].
    apply Hnone. lia.
Qed.

(** ** Amplitude: outcome, unread tail, constant buffers *)

Section AmplitudeFacts.

Import Audio.

Lemma firstn_length_multiple (size k : nat) (data : list uint8) :
  (length data mod size = 0)%nat -> (k mod size = 0)%nat ->
  (length (firstn k data) mod size = 0)%nat.
Proof.
  intros Hd Hk. rewrite length_firstn.
  destruct (Nat.min_spec k (length data)) as [[_ ->]|[_ ->]]; assumption.
Qed.

Lemma skipn_length_multiple (size k : nat) (data : list uint8) :
  (size <> 0)%nat ->
  (length data mod size = 0)%nat -> (k mod size = 0)%nat ->
  (length (skipn k data) mod size = 0)%nat.
Proof.
  intros Hs Hd Hk. rewrite length_skipn.
  destruct (le_lt_dec (length data) k) as [Hle|Hlt].
  - replace (length data - k)%nat with 0%nat by lia. apply Nat.Div0.mod_0_l.
  - apply Nat.Div0.mod_divides in Hd as [a Ha].
    apply Nat.Div0.mod_divides in Hk as [c Hc].
    rewrite Ha, Hc, <- Nat.mul_sub_distr_l, Nat.mul_comm.
    apply Nat.Div0.mod_mul.
Qed.

(** The loop returns when the unread data is a whole number of samples. *)
Lemma amplitude_loop_returns (cn size spf : nat) (fmt : sample_format) (n : nat) :
  format_of size = Ok fmt ->
  forall data li,
    (length data mod size = 0)%nat ->
    exists out,
      amplitude_loop n cn size spf fmt data li = Ok (li ++ out) /\
      length out = n.
Proof.
  intros Hfmt.
  assert (Hitem : itemsize fmt = size).
  { destruct size as [|[|[|[|[|size]]]]]; cbn in Hfmt; try discriminate;
      injection Hfmt as <-; reflexivity. }
  assert (Hsize : (size <> 0)%nat) by (destruct fmt; cbn in Hitem; lia).
  assert (Hk : ((spf * (cn * size)) mod size = 0)%nat).
  { rewrite Nat.mul_assoc. apply Nat.Div0.mod_mul. }
  induction n as [|n IH]; intros data li Hdata; cbn [amplitude_loop].
  - exists []. rewrite app_nil_r. split; reflexivity.
  - unfold readframes.
    assert (Hchunk : frombuffer fmt (firstn (spf * (cn * size)) data)
                     = Ok (map (decode_item fmt)
                             (group_by (itemsize fmt)
                                (length (firstn (spf * (cn * size)) data))
                                (firstn (spf * (cn * size)) data)))).
    { unfold frombuffer. rewrite Hitem.
      rewrite (firstn_length_multiple size _ data Hdata Hk). reflexivity. }
    rewrite Hchunk. cbn [bind].
    destruct (IH (skipn (spf * (cn * size)) data)
                 (li ++ [chunk_value size
                           (map (decode_item fmt)
                              (group_by (itemsize fmt)
                                 (length (firstn (spf * (cn * size)) data))
                                 (firstn (spf * (cn * size)) data)))]))
      as (out & Hrun & Hlen).
    { apply skipn_length_multiple; assumption. }
    eexists (_ :: out). split.
    + rewrite Hrun, <- app_assoc. reflexivity.
    + cbn [length]. rewrite Hlen. reflexivity.
Qed.

(** The loop reads [n] chunks and nothing after them. *)
Lemma amplitude_loop_prefix (cn size spf : nat) (fmt : sample_format) (n : nat) :
  forall data li,
    amplitude_loop n cn size spf fmt data li
    = amplitude_loop n cn size spf fmt
        (firstn (n * (spf * (cn * size))) data) li.
Proof.
  induction n as [|n IH]; intros data li; cbn [amplitude_loop]; [reflexivity|].
  unfold readframes.
  set (k := (spf * (cn * size))%nat).
  replace (S n * k)%nat with (k + n * k)%nat by lia.
  rewrite firstn_firstn.
  replace (Nat.min k (k + n * k)) with k by lia.
  rewrite <- firstn_skipn_comm.
  destruct (frombuffer fmt (firstn k data)) as [tmp|e]; cbn [bind]; [|reflexivity].
  apply IH.
Qed.

End AmplitudeFacts.

(** X10. [amplitude] fails before it reads any audio when the video has no
    frames ([samples // frames] raises [ZeroDivisionError], whatever the
    sample width) and, for a video with frames, when the sample width is not
    1, 2 or 4 bytes (the format table raises [KeyError]). *)
Theorem amplitude_rejects (w : Audio.AudioSource) :
  Audio.amplitude 0 w = Raise ZeroDivisionError /\
  forall frames,
    frames <> 0%nat ->
    Audio.sampwidth w <> 1%nat -> Audio.sampwidth w <> 2%nat ->
    Audio.sampwidth w <> 4%nat ->
    Audio.amplitude frames w = Raise KeyError.
Proof.
  split; [reflexivity|].
  intros frames Hf H1 H2 H4. unfold Audio.amplitude.
  destruct (Nat.eqb_spec frames 0) as [|_]; [contradiction|].
  destruct (Audio.sampwidth w) as [|[|[|[|[|size]]]]]; try contradiction;
    reflexivity.
Qed.

(** X11. For a video with frames, a supported sample width and audio data
    that is a whole number of samples, [amplitude] returns one value per
    video frame. *)
Theorem amplitude_length (frames : nat) (w : Audio.AudioSource) :
  frames <> 0%nat ->
  (Audio.sampwidth w = 1 \/ Audio.sampwidth w = 2 \/ Audio.sampwidth w = 4)%nat ->
  (length (Audio.pcm w) mod Audio.sampwidth w = 0)%nat ->
  exists li, Audio.amplitude frames w = Ok li /\ length li = frames.
Proof.
  intros Hf Hw Hdata. unfold Audio.amplitude.
  destruct (Nat.eqb_spec frames 0) as [|_]; [contradiction|].
  assert (Hfmt : exists fmt, Audio.format_of (Audio.sampwidth w) = Ok fmt).
  { destruct Hw as [->|[->| ->]]; eexists; reflexivity. }
  destruct Hfmt as [fmt Hfmt]. rewrite Hfmt. cbn [bind].
  destruct (amplitude_loop_returns (Audio.nchannels w) (Audio.sampwidth w)
              (Audio.nframes w / frames) fmt frames Hfmt (Audio.pcm w) [] Hdata)
    as (out & Hrun & Hlen).
  exists out. split; [exact Hrun | exact Hlen].
Qed.

Lemma amplitude_length_witness :
  1%nat <> 0%nat /\
  (Audio.sampwidth Audio.low_audio = 1 \/ Audio.sampwidth Audio.low_audio = 2
   \/ Audio.sampwidth Audio.low_audio = 4)%nat /\
  (length (Audio.pcm Audio.low_audio) mod Audio.sampwidth Audio.low_audio = 0)%nat /\
  exists li, Audio.amplitude 1 Audio.low_audio = Ok li /\ length li = 1%nat.
Proof.
  assert (Hf : 1%nat <> 0%nat) by discriminate.
  assert (Hw : (Audio.sampwidth Audio.low_audio = 1
                \/ Audio.sampwidth Audio.low_audio = 2
                \/ Audio.sampwidth Audio.low_audio = 4)%nat) by (left; reflexivity).
  assert (Hd : (length (Audio.pcm Audio.low_audio)
                mod Audio.sampwidth Audio.low_audio = 0)%nat) by reflexivity.
  split; [exact Hf|]. split; [exact Hw|]. split; [exact Hd|].
  exact (amplitude_length 1 Audio.low_audio Hf Hw Hd).
Defined.

(** X12. [amplitude] reads [frames] chunks of [samples // frames] audio
    frames and nothing after them: the result depends only on the first
    [frames * (samples // frames) * channels * width] bytes of the data, so
    the remaining tail is dropped. *)
Theorem amplitude_ignores_tail (frames cn size n : nat) (data : list uint8) :
  Audio.amplitude frames (Audio.mkAudio cn size n data)
  = Audio.amplitude frames
      (Audio.mkAudio cn size n
         (firstn (frames * ((n / frames) * (cn * size))) data)).
Proof.
  unfold Audio.amplitude.
  cbn [Audio.nchannels Audio.sampwidth Audio.nframes Audio.pcm].
  destruct (frames =? 0)%nat; [reflexivity|].
  destruct (Audio.format_of size) as [fmt|e]; cbn [bind]; [|reflexivity].
  apply amplitude_loop_prefix.
Qed.

Section ConstantBuffer.

Import Audio.

Lemma firstn_repeat {X : Type} (x : X) (k c : nat) :
  firstn k (repeat x c) = repeat x (Nat.min k c).
Proof.
  revert c. induction k as [|k IH]; intros [|c]; cbn; try reflexivity.
  rewrite IH. reflexivity.
Qed.

Lemma skipn_repeat {X : Type} (x : X) (k c : nat) :
  skipn k (repeat x c) = repeat x (c - k).
Proof.
  revert c. induction k as [|k IH]; intros [|c]; cbn; try reflexivity.
  apply IH.
Qed.

Lemma map_repeat {X Y : Type} (g : X -> Y) (x : X) (n : nat) :
  map g (repeat x n) = repeat (g x) n.
Proof. induction n as [|n IH]; cbn; [reflexivity | rewrite IH; reflexivity]. Qed.

(** A buffer of one-byte items decodes to the values of its bytes. *)
Lemma frombuffer_bytes (b : uint8) (m : nat) :
  frombuffer fmt_B (repeat b m) = Ok (repeat (u8 b) m).
Proof.
  unfold frombuffer. cbn [itemsize]. rewrite Nat.mod_1_r. cbn [Nat.eqb].
  f_equal. rewrite repeat_length.
  induction m as [|m IH]; [reflexivity|].
  cbn [repeat group_by firstn skipn map decode_item le_value fold_right].
  rewrite IH. f_equal. lia.
Qed.

Lemma of_Z_mult (a b : Z) : of_Z (a * b) = (of_Z a * of_Z b)%Qc.
Proof.
  apply Qc_is_canon. unfold of_Z, Qcmult. cbn [this Q2Qc].
  rewrite !Qred_correct. rewrite inject_Z_mult. reflexivity.
Qed.

Lemma of_Z_nonzero (a : Z) : a <> 0 -> of_Z a <> (0%Qc).
Proof.
  intros Ha H. apply Q2Qc_eq_iff in H. unfold Qeq in H. cbn in H. lia.
Qed.

(** The mean of [m >= 1] equal integers is that integer, and rounding it to
    three decimals leaves it alone. *)
Lemma average_repeat (v : Z) (m : nat) :
  m <> 0%nat -> average (repeat v m) = Fin (of_Z v).
Proof.
  intros Hm. destruct m as [|m]; [contradiction|].
  unfold average. cbn [repeat].
  change (v :: repeat v m) with (repeat v (S m)).
  rewrite zsum_repeat, repeat_length, of_Z_mult.
  f_equal. apply Qcdiv_mult_l. apply of_Z_nonzero. lia.
Qed.

Lemma round3_integer (v : Z) : round3 (Fin (of_Z v)) = Fin (of_Z v).
Proof.
  unfold round3. f_equal. apply Q2Qc_eq_iff.
  unfold of_Z. cbn [this Q2Qc].
  rewrite Qred_identity by (cbn; apply Z.gcd_1_r).
  unfold round_half_even, Qmult, inject_Z. cbn [Qnum Qden Pos.mul].
  rewrite !Z.div_1_r, Z.mod_1_r. cbn [Z.eqb andb].
  replace (2 * (v * 1000) - 2 * (v * 1000)) with 0 by lia.
  cbn [Z.eqb]. rewrite Z.odd_mul. cbn [Z.odd andb].
  unfold Qeq. cbn [Qnum Qden]. lia.
Qed.

Lemma chunk_value_constant (b : uint8) (m : nat) :
  m <> 0%nat ->
  chunk_value 1 (repeat (u8 b) m) = Fin (of_Z (byte_magnitude b)).
Proof.
  intros Hm. unfold chunk_value. cbn [Nat.eqb].
  rewrite !map_repeat, (average_repeat _ m Hm), round3_integer.
  do 2 f_equal. unfold byte_magnitude. destruct b; vm_compute; reflexivity.
Qed.

Lemma amplitude_loop_constant (b : uint8) (cn spf : nat) (n : nat) :
  (spf * (cn * 1) <> 0)%nat ->
  forall c li,
    (n * (spf * (cn * 1)) <= c)%nat ->
    amplitude_loop n cn 1 spf fmt_B (repeat b c) li
    = Ok (li ++ repeat (Fin (of_Z (byte_magnitude b))) n).
Proof.
  intros Hk. induction n as [|n IH]; intros c li Hc; cbn [amplitude_loop].
  - cbn [repeat]. rewrite app_nil_r. reflexivity.
  - unfold readframes. rewrite firstn_repeat, skipn_repeat, frombuffer_bytes.
    cbn [bind]. rewrite IH by lia.
    rewrite chunk_value_constant by lia.
    rewrite <- app_assoc. reflexivity.
Qed.

End ConstantBuffer.

(** X13. For 1-byte audio whose data bytes all have the value [b], with at
    least one sample per video frame and enough data for every frame,
    [amplitude] emits the same value for every frame: [b - 128] when
    [b >= 128], but [b + 65408] when [b < 128], where the subtraction wraps
    around in 16 unsigned bits. *)
Theorem amplitude_constant_bytes (frames cn n count : nat) (b : uint8) :
  frames <> 0%nat ->
  ((n / frames) * cn <> 0)%nat ->
  (frames * ((n / frames) * cn) <= count)%nat ->
  Audio.amplitude frames (Audio.mkAudio cn 1 n (repeat b count))
  = Ok (repeat (Fin (of_Z (if u8 b <? 128 then u8 b + 65408 else u8 b - 128)))
               frames).
Proof.
  intros Hf Hk Hc. unfold Audio.amplitude.
  cbn [Audio.nchannels Audio.sampwidth Audio.nframes Audio.pcm].
  destruct (Nat.eqb_spec frames 0) as [|_]; [contradiction|].
  cbn [Audio.format_of bind].
  rewrite (amplitude_loop_constant b cn (n / frames) frames) by lia.
  reflexivity.
Qed.

Lemma amplitude_constant_bytes_witness :
  2%nat <> 0%nat /\
  ((6 / 2) * 2 <> 0)%nat /\
  (2 * ((6 / 2) * 2) <= 12)%nat /\
  Audio.amplitude 2 (Audio.mkAudio 2 1 6 (repeat Byte.x90 12))
  = Ok (repeat (Fin (of_Z (if u8 Byte.x90 <? 128 then u8 Byte.x90 + 65408
                           else u8 Byte.x90 - 128))) 2).
Proof.
  assert (Hf : 2%nat <> 0%nat) by discriminate.
  assert (Hk : ((6 / 2) * 2 <> 0)%nat) by (cbn; discriminate).
  assert (Hc : (2 * ((6 / 2) * 2) <= 12)%nat) by (cbn; lia).
  split; [exact Hf|]. split; [exact Hk|]. split; [exact Hc|].
  exact (amplitude_constant_bytes 2 2 6 12 Byte.x90 Hf Hk Hc).
Defined.

(** ** Aggregator: outcome, zero inputs, range *)

Section JointOutcome.

Import Joint.

Lemma joint_empty_first (rest : list (list Qc)) :
  joint ([] :: rest) = Raise ValueError.
Proof. reflexivity. Qed.

Lemma fadd_nan_r (a : float) : fadd a NaN = NaN.
Proof. destruct a; reflexivity. Qed.

Lemma fold_fadd_from_nan {X : Type} (g : X -> float) (l : list X) :
  fold_left (fun acc d => fadd acc (g d)) l NaN = NaN.
Proof. induction l as [|d l IH]; [reflexivity | exact IH]. Qed.

Lemma fold_fadd_nan {X : Type} (g : X -> float) (l : list X) (z : X) :
  In z l -> g z = NaN ->
  forall a, fold_left (fun acc d => fadd acc (g d)) l a = NaN.
Proof.
  intros Hin Hz. induction l as [|d l IH]; intros a; [contradiction|].
  cbn [fold_left]. destruct Hin as [->|Hin].
  - rewrite Hz, fadd_nan_r. apply fold_fadd_from_nan.
  - apply IH. exact Hin.
Qed.

Lemma padded_zero (base : nat) (z : list Qc) :
  Forall (fun x => x = of_Z 0) z ->
  Forall (fun x => x = of_Z 0) (padded base z).
Proof.
  intros Hz. unfold padded. apply Forall_app. split; [exact Hz|].
  apply Forall_forall. intros x Hx. apply repeat_spec in Hx. exact Hx.
Qed.

(** An input of zeros rescales to NaN at every position. *)
Lemma rescaled_zero (base : nat) (z : list Qc) (i : nat) :
  (1 <= base)%nat -> (length z <= base)%nat ->
  Forall (fun x => x = of_Z 0) z ->
  rescaled base z i = NaN.
Proof.
  intros Hbase Hlen Hz. unfold rescaled.
  pose proof (padded_zero base z Hz) as Hp.
  pose proof (padded_length base z Hlen) as Hl.
  destruct (padded base z) as [|x tl] eqn:Hpad; [reflexivity|].
  rewrite Forall_forall in Hp.
  rewrite (Hp (fold_left Qcmax tl x) (fold_Qcmax_in tl x)).
  assert (Hnth : nth i (x :: tl) (of_Z 0) = of_Z 0).
  { destruct (nth_in_or_default i (x :: tl) (of_Z 0)) as [Hin|Hd];
      [apply Hp; exact Hin | exact Hd]. }
  rewrite Hnth. reflexivity.
Qed.

(** *** Non-negative inputs *)

Lemma Qcmax_ge_l (a b : Qc) : (a <= Qcmax a b)%Qc.
Proof.
  unfold Qcmax. destruct (a ?= b)%Qc eqn:Hc; try apply Qcle_refl.
  apply Qclt_le_weak, Qclt_alt. exact Hc.
Qed.

Lemma Qcmax_ge_r (a b : Qc) : (b <= Qcmax a b)%Qc.
Proof.
  unfold Qcmax. destruct (a ?= b)%Qc eqn:Hc.
  - apply Qceq_alt in Hc. subst. apply Qcle_refl.
  - apply Qcle_refl.
  - apply Qclt_le_weak, Qcgt_alt. exact Hc.
Qed.

Lemma fold_Qcmax_ge_start (l : list Qc) :
  forall x, (x <= fold_left Qcmax l x)%Qc.
Proof.
  induction l as [|y l IH]; intros x; cbn [fold_left]; [apply Qcle_refl|].
  eapply Qcle_trans; [apply Qcmax_ge_l | apply IH].
Qed.

Lemma fold_Qcmax_ge (l : list Qc) :
  forall x y, In y (x :: l) -> (y <= fold_left Qcmax l x)%Qc.
Proof.
  induction l as [|z l IH]; intros x y Hin; cbn [fold_left].
  - destruct Hin as [->|[]]. apply Qcle_refl.
  - destruct Hin as [->|[->|Hin]].
    + eapply Qcle_trans; [apply Qcmax_ge_l | apply fold_Qcmax_ge_start].
    + eapply Qcle_trans; [apply Qcmax_ge_r | apply fold_Qcmax_ge_start].
    + apply IH. right. exact Hin.
Qed.

Lemma Qcdiv_unit_interval (x m : Qc) :
  (0 <= x)%Qc -> (x <= m)%Qc -> (0 < m)%Qc ->
  (0 <= x / m)%Qc /\ (x / m <= 1)%Qc.
Proof.
  intros Hx Hxm Hm.
  assert (Hne : m <> 0%Qc) by (intros ->; apply (Qclt_not_eq _ _ Hm); reflexivity).
  assert (Hback : ((x / m) * m = x)%Qc).
  { rewrite Qcmult_comm. apply Qcmult_div_r. exact Hne. }
  split.
  - apply (Qcmult_lt_0_le_reg_r _ _ m Hm). rewrite Hback, Qcmult_0_l. exact Hx.
  - apply (Qcmult_lt_0_le_reg_r _ _ m Hm). rewrite Hback, Qcmult_1_l. exact Hxm.
Qed.

(** A non-negative input with a positive element rescales into [[0, 1]]. *)
Lemma rescaled_unit_interval (base : nat) (d : list Qc) (i : nat) :
  Forall (fun x => (0 <= x)%Qc) d ->
  Exists (fun x => (0 < x)%Qc) d ->
  exists q, rescaled base d i = Fin q /\ (0 <= q)%Qc /\ (q <= 1)%Qc.
Proof.
  intros Hnn Hpos. unfold rescaled.
  assert (Hpn : Forall (fun x => (0 <= x)%Qc) (padded base d)).
  { unfold padded. apply Forall_app. split; [exact Hnn|].
    apply Forall_forall. intros x Hx. apply repeat_spec in Hx. subst.
    apply Qcle_refl. }
  assert (Hpp : Exists (fun x => (0 < x)%Qc) (padded base d)).
  { unfold padded. apply Exists_app. left. exact Hpos. }
  destruct (padded base d) as [|x tl] eqn:Hpad; [inversion Hpp|].
  set (m := fold_left Qcmax tl x).
  assert (Hm : (0 < m)%Qc).
  { apply Exists_exists in Hpp as (y & Hy & Hy0).
    eapply Qclt_le_trans; [exact Hy0 | apply fold_Qcmax_ge; exact Hy]. }
  assert (Hnth : (0 <= nth i (x :: tl) (of_Z 0))%Qc /\
                 (nth i (x :: tl) (of_Z 0) <= m)%Qc).
  { destruct (nth_in_or_default i (x :: tl) (of_Z 0)) as [Hin|Hd].
    - split; [rewrite Forall_forall in Hpn; apply Hpn; exact Hin|].
      apply fold_Qcmax_ge. exact Hin.
    - rewrite Hd. split; [apply Qcle_refl | apply Qclt_le_weak; exact Hm]. }
  destruct Hnth as [H0 H1].
  exists (nth i (x :: tl) (of_Z 0) / m)%Qc.
  split; [apply fdiv_positive; exact Hm|].
  apply Qcdiv_unit_interval; assumption.
Qed.

Lemma of_Z_succ (n : Z) : of_Z (n + 1) = (of_Z n + 1)%Qc.
Proof.
  apply Qc_is_canon. unfold of_Z, Qcplus. cbn [this Q2Qc].
  rewrite !Qred_correct. rewrite inject_Z_plus. reflexivity.
Qed.

Lemma fold_unit_interval (base : nat) (i : nat) (data : list (list Qc)) :
  Forall (fun d => Forall (fun x => (0 <= x)%Qc) d /\
                   Exists (fun x => (0 < x)%Qc) d) data ->
  forall a, (0 <= a)%Qc ->
    exists q,
      fold_left (fun acc d => fadd acc (rescaled base d i)) data (Fin a) = Fin q /\
      (0 <= q)%Qc /\ (q <= a + of_Z (Z.of_nat (length data)))%Qc.
Proof.
  induction 1 as [|d data [Hnn Hpos] _ IH]; intros a Ha; cbn [fold_left length].
  - exists a. split; [reflexivity|]. split; [exact Ha|].
    change (of_Z (Z.of_nat 0)) with 0%Qc. rewrite Qcplus_0_r. apply Qcle_refl.
  - destruct (rescaled_unit_interval base d i Hnn Hpos) as (q & -> & Hq0 & Hq1).
    cbn [fadd].
    assert (Haq : (0 <= a + q)%Qc).
    { rewrite <- (Qcplus_0_r 0). apply Qcplus_le_compat; assumption. }
    destruct (IH (a + q)%Qc Haq) as (r & Hr & Hr0 & Hr1).
    exists r. split; [exact Hr|]. split; [exact Hr0|].
    eapply Qcle_trans; [exact Hr1|].
    rewrite Nat2Z.inj_succ, <- Z.add_1_r, of_Z_succ.
    set (L := of_Z (Z.of_nat (length data))).
    replace (a + q + L)%Qc with ((a + L) + q)%Qc by ring.
    replace (a + (L + 1))%Qc with ((a + L) + 1)%Qc by ring.
    apply Qcplus_le_compat; [apply Qcle_refl | exact Hq1].
Qed.

End JointOutcome.

(** X14. [joint] returns exactly when the first input is non-empty and no
    later input is longer than it; on every other non-empty list of inputs
    it raises [ValueError]. *)
Theorem joint_returns_iff (d0 : list Qc) (rest : list (list Qc)) :
  (returns (Joint.joint (d0 :: rest))
   <-> d0 <> [] /\ Forall (fun d => (length d <= length d0)%nat) rest) /\
  (returns (Joint.joint (d0 :: rest))
   \/ Joint.joint (d0 :: rest) = Raise ValueError).
Proof.
  destruct d0 as [|x0 d0].
  - rewrite joint_empty_first. split; [|right; reflexivity].
    split; [intros [r Hr]; discriminate | intros [Hne _]; congruence].
  - destruct (Forall_Exists_dec
                (fun d => (length d <= length (x0 :: d0))%nat)
                (fun d => le_dec (length d) (length (x0 :: d0))) rest)
      as [Hall|Hex].
    + destruct (joint_spec (x0 :: d0) rest ltac:(discriminate) Hall)
        as (r & Hr & _).
      split; [|left; exists r; exact Hr].
      split; [intros _; split; [discriminate | exact Hall]|].
      intros _. exists r. exact Hr.
    + assert (Hraise : Joint.joint ((x0 :: d0) :: rest) = Raise ValueError).
      { unfold Joint.joint. apply joint_loop_longer.
        - cbn [length]. lia.
        - apply Exists_cons_tl. eapply Exists_impl; [|exact Hex].
          cbn. intros d Hd. lia.
        - apply repeat_length. }
      rewrite Hraise. split; [|right; reflexivity].
      split; [intros [r Hr]; discriminate|].
      intros [_ Hall]. exfalso.
      apply Exists_exists in Hex as (d & Hin & Hd).
      rewrite Forall_forall in Hall. apply Hd, Hall, Hin.
Qed.

(** X15. An input that consists of zeros, or a later input without
    elements, turns every element of the result of [joint] into NaN: its
    maximum after padding is 0 and 0 / 0 is added at every position. *)
Theorem joint_zero_input_gives_nan (d0 : list Qc) (rest : list (list Qc))
  (z : list Qc) :
  d0 <> [] ->
  Forall (fun d => (length d <= length d0)%nat) rest ->
  In z (d0 :: rest) ->
  Forall (fun x => x = of_Z 0) z ->
  exists r,
    Joint.joint (d0 :: rest) = Ok r /\
    length r = length d0 /\
    Forall (fun x => x = NaN) r.
Proof.
  intros Hne Hrest Hin Hz.
  destruct (joint_spec d0 rest Hne Hrest) as (r & Hr & Hlen & Hnth).
  exists r. split; [exact Hr|]. split; [exact Hlen|].
  assert (Hbase : (1 <= length d0)%nat) by (destruct d0; [congruence | cbn; lia]).
  assert (Hzlen : (length z <= length d0)%nat).
  { destruct Hin as [<-|Hin]; [lia|].
    rewrite Forall_forall in Hrest. apply Hrest, Hin. }
  apply Forall_forall. intros x Hx.
  apply In_nth with (d := NaN) in Hx as (i & Hi & <-).
  rewrite Hlen in Hi. rewrite (Hnth i Hi).
  apply (fold_fadd_nan (fun d => Joint.rescaled (length d0) d i) _ z Hin).
  apply rescaled_zero; assumption.
Qed.

Lemma joint_zero_input_gives_nan_witness :
  Joint.ramp <> [] /\
  Forall (fun d => (length d <= length Joint.ramp)%nat) [[of_Z 0; of_Z 0]] /\
  In [of_Z 0; of_Z 0] [Joint.ramp; [of_Z 0; of_Z 0]] /\
  Forall (fun x => x = of_Z 0) [of_Z 0; of_Z 0] /\
  Joint.joint [Joint.ramp; [of_Z 0; of_Z 0]] = Ok [NaN; NaN; NaN].
Proof.
  assert (Hne : Joint.ramp <> []) by discriminate.
  assert (Hrest : Forall (fun d => (length d <= length Joint.ramp)%nat)
                         [[of_Z 0; of_Z 0]])
    by (repeat constructor).
  assert (Hin : In [of_Z 0; of_Z 0] [Joint.ramp; [of_Z 0; of_Z 0]])
    by (right; left; reflexivity).
  assert (Hz : Forall (fun x => x = of_Z 0) [of_Z 0; of_Z 0])
    by (repeat constructor).
  split; [exact Hne|]. split; [exact Hrest|]. split; [exact Hin|].
  split; [exact Hz|].
  destruct (joint_zero_input_gives_nan Joint.ramp _ _ Hne Hrest Hin Hz)
    as (r & Hr & _ & _).
  reflexivity.
Defined.

(** X16. When every input is non-negative, has a positive element and is no
    longer than the first, every element of the result of [joint] is a
    finite value between 0 and the number of inputs: each input contributes
    a value in [[0, 1]] and the contributions are added, not averaged. *)
Theorem joint_range (d0 : list Qc) (rest : list (list Qc)) :
  Forall (fun d => (length d <= length d0)%nat) rest ->
  Forall (fun d => Forall (fun x => (0 <= x)%Qc) d /\
                   Exists (fun x => (0 < x)%Qc) d) (d0 :: rest) ->
  exists r,
    Joint.joint (d0 :: rest) = Ok r /\
    Forall (fun x => exists q, x = Fin q /\ (0 <= q)%Qc /\
                               (q <= of_Z (Z.of_nat (length (d0 :: rest))))%Qc) r.
Proof.
  intros Hrest Hdata.
  assert (Hne : d0 <> []).
  { inversion Hdata as [|? ? [_ Hpos] _]; subst. intros ->. inversion Hpos. }
  destruct (joint_spec d0 rest Hne Hrest) as (r & Hr & Hlen & Hnth).
  exists r. split; [exact Hr|].
  apply Forall_forall. intros x Hx.
  apply In_nth with (d := NaN) in Hx as (i & Hi & <-).
  rewrite Hlen in Hi. rewrite (Hnth i Hi).
  destruct (fold_unit_interval (length d0) i (d0 :: rest) Hdata (of_Z 0)
              (Qcle_refl _)) as (q & Hq & Hq0 & Hq1).
  exists q. split; [exact Hq|]. split; [exact Hq0|].
  change (of_Z 0) with 0%Qc in Hq1. rewrite Qcplus_0_l in Hq1. exact Hq1.
Qed.

Lemma joint_range_witness :
  Forall (fun d => (length d <= length Joint.ramp)%nat) [Joint.ramp] /\
  exists r, Joint.joint [Joint.ramp; Joint.ramp] = Ok r /\ length r = 3%nat.
Proof.
  assert (Hrest : Forall (fun d => (length d <= length Joint.ramp)%nat) [Joint.ramp])
    by (repeat constructor).
  assert (Hpos : Forall (fun d => Forall (fun x => (0 <= x)%Qc) d /\
                                  Exists (fun x => (0 < x)%Qc) d)
                        [Joint.ramp; Joint.ramp]).
  { assert (H1 : Forall (fun x => (0 <= x)%Qc) Joint.ramp /\
                 Exists (fun x => (0 < x)%Qc) Joint.ramp).
    { split; [repeat constructor; discriminate|].
      apply Exists_cons_hd. reflexivity. }
    constructor; [exact H1|]. constructor; [exact H1 | constructor]. }
  split; [exact Hrest|].
  destruct (joint_range Joint.ramp [Joint.ramp] Hrest Hpos) as (r & Hr & _).
  exists r. split; [exact Hr|].
  assert (Hrun : Joint.joint [Joint.ramp; Joint.ramp]
                 = Ok [Fin (Q2Qc (1 # 2)); Fin (of_Z 1); Fin (of_Z 2)])
    by (unfold Joint.joint, Joint.ramp; cbn;
        repeat f_equal; apply Qc_is_canon; reflexivity).
  rewrite Hrun in Hr. injection Hr as <-. reflexivity.
Defined.

(** ** The metric part of [process] *)

Section PipelineFacts.

Import Serializer.

Variable V : Type.
Variable features : list string.

(** The records of one group carry the values of the sequence, in order,
    under the label of the group. *)
Lemma group_loop_shape (i : nat) (f : string) (seq : list V) :
  nth_error features i = Some f ->
  forall time_stamp li2,
    exists time_stamp' evs,
      group_loop features i seq time_stamp li2 = Ok (time_stamp', li2 ++ evs) /\
      map value evs = seq /\
      map feature evs = repeat f (length seq).
Proof.
  intros Hf. induction seq as [|each rest IH]; intros time_stamp li2;
    cbn [group_loop].
  - exists time_stamp, []. rewrite app_nil_r. repeat split.
  - rewrite Hf.
    destruct (IH (round64 (time_stamp + 1000))
                 (li2 ++ [mkEvent (py_int time_stamp) f each track_parameters]))
      as (ts' & evs & Hrun & Hval & Hfeat).
    exists ts', (mkEvent (py_int time_stamp) f each track_parameters :: evs).
    split; [rewrite Hrun, <- app_assoc; reflexivity|].
    split; cbn [map value feature length repeat]; congruence.
Qed.

Lemma groups_loop_cons (copy : Q) (i : nat) (f : string) (seq : list V)
  (rest : list (list V)) (time_stamp : Q) (li2 : list (MetricEvent V)) :
  nth_error features i = Some f ->
  exists evs,
    groups_loop features copy i (seq :: rest) time_stamp li2
    = groups_loop features copy (S i) rest copy (li2 ++ evs) /\
    map value evs = seq /\
    map feature evs = repeat f (length seq).
Proof.
  intros Hf. cbn [groups_loop].
  destruct (group_loop_shape i f seq Hf time_stamp li2)
    as (ts' & evs & Hrun & Hval & Hfeat).
  exists evs. rewrite Hrun. cbn [bind snd]. repeat split; assumption.
Qed.

End PipelineFacts.

(** X17. For a video with frames whose first read decodes, and audio of a
    supported width that is a whole number of samples, the metric part of
    [process] succeeds: the inputs of [joint] have the lengths [n], [n - 1]
    and [n - 1], so none is longer than the first, and [to_json] finds its
    five labels.  The file receives [n] brightness, [n - 1] histogram, [n]
    amplitude, [n - 1] contrast and [n] joint records, in this order. *)
Theorem process_metrics_records (height width : nat) (now : Q)
  (video : Video.FrameSource) (wav : Audio.AudioSource) (f0 : Video.Frame) :
  Video.frame_count video <> 0%nat ->
  Video.read_at video 0 = Some f0 ->
  (Audio.sampwidth wav = 1 \/ Audio.sampwidth wav = 2
   \/ Audio.sampwidth wav = 4)%nat ->
  (length (Audio.pcm wav) mod Audio.sampwidth wav = 0)%nat ->
  exists out,
    Pipeline.process_metrics height width now video wav = Ok out /\
    map Serializer.feature out
    = repeat "brightness"%string (Video.frame_count video)
      ++ repeat "histogram"%string (Video.frame_count video - 1)
      ++ repeat "amplitude"%string (Video.frame_count video)
      ++ repeat "contrast"%string (Video.frame_count video - 1)
      ++ repeat "joint"%string (Video.frame_count video).
Proof.
  intros Hfc Hread Hw Hdata. unfold Pipeline.process_metrics.
  destruct (amplitude_loop_returns (Audio.nchannels wav) (Audio.sampwidth wav)
              (Audio.nframes wav / Video.frame_count video))
    with (n := Video.frame_count video) (data := Audio.pcm wav)
         (li := @nil float)
         (fmt := match Audio.sampwidth wav with
                 | 1%nat => Audio.fmt_B | 2%nat => Audio.fmt_h
                 | _ => Audio.fmt_i end)
    as (amp & Hamp & Hamplen);
    [destruct Hw as [->|[->| ->]]; reflexivity | exact Hdata |].
  assert (Hamp' : Audio.amplitude (Video.frame_count video) wav = Ok amp).
  { unfold Audio.amplitude.
    destruct (Nat.eqb_spec (Video.frame_count video) 0) as [|_]; [contradiction|].
    destruct Hw as [Hw|[Hw|Hw]]; rewrite Hw in *; cbn [Audio.format_of bind];
      exact Hamp. }
  rewrite Hamp'. cbn [bind].
  destruct (contrast_length height width video f0 Hread) as (clist & Hc & Hclen).
  rewrite Hc. cbn [bind].
  pose proof (brightness_loop_length height width (Video.frame_count video)
                (Video.stream video)) as Hblen.
  fold (Video.brightness height width video) in Hblen.
  pose proof (histogram_loop_length height width (Video.frame_count video - 1)
                (Video.stream video)
                (repeat 0 (Z.to_nat (Video.BINLEN ^ 3)))) as Hhlen.
  fold (Video.histogram height width video) in Hhlen.
  destruct (joint_spec (Pipeline.as_float64 (Video.brightness height width video))
              [Pipeline.as_float64 (Video.histogram height width video);
               Pipeline.as_float64 clist])
    as (jlist & Hj & Hjlen & _).
  { unfold Pipeline.as_float64. intros Hnil.
    apply (f_equal (@length Qc)) in Hnil. rewrite length_map, Hblen in Hnil.
    cbn in Hnil. contradiction. }
  { unfold Pipeline.as_float64. rewrite !length_map, Hblen.
    constructor; [rewrite length_map, Hhlen; lia|].
    constructor; [rewrite length_map, Hclen; lia | constructor]. }
  rewrite Hj. cbn [bind].
  unfold Pipeline.as_float64 in Hjlen. rewrite length_map, Hblen in Hjlen.
  unfold Serializer.to_json.
  destruct (groups_loop_cons Pipeline.metric_value Pipeline.labels now 0
              "brightness"%string (map Pipeline.IntValue (Video.brightness height width video))
              [map Pipeline.IntValue (Video.histogram height width video);
               map Pipeline.FloatValue amp; map Pipeline.IntValue clist;
               map Pipeline.FloatValue jlist] now [] eq_refl)
    as (e1 & -> & _ & Hf1).
  destruct (groups_loop_cons Pipeline.metric_value Pipeline.labels now 1
              "histogram"%string (map Pipeline.IntValue (Video.histogram height width video))
              [map Pipeline.FloatValue amp; map Pipeline.IntValue clist;
               map Pipeline.FloatValue jlist] now ([] ++ e1) eq_refl)
    as (e2 & -> & _ & Hf2).
  destruct (groups_loop_cons Pipeline.metric_value Pipeline.labels now 2
              "amplitude"%string (map Pipeline.FloatValue amp)
              [map Pipeline.IntValue clist; map Pipeline.FloatValue jlist]
              now (([] ++ e1) ++ e2) eq_refl)
    as (e3 & -> & _ & Hf3).
  destruct (groups_loop_cons Pipeline.metric_value Pipeline.labels now 3
              "contrast"%string (map Pipeline.IntValue clist)
              [map Pipeline.FloatValue jlist]
              now ((([] ++ e1) ++ e2) ++ e3) eq_refl)
    as (e4 & -> & _ & Hf4).
  destruct (groups_loop_cons Pipeline.metric_value Pipeline.labels now 4
              "joint"%string (map Pipeline.FloatValue jlist) []
              now (((([] ++ e1) ++ e2) ++ e3) ++ e4) eq_refl)
    as (e5 & -> & _ & Hf5).
  cbn [Serializer.groups_loop]. eexists. split; [reflexivity|].
  rewrite !map_app, Hf1, Hf2, Hf3, Hf4, Hf5. cbn [map app].
  rewrite !length_map, Hblen, Hhlen, Hamplen, Hclen, Hjlen.
  rewrite <- !app_assoc. reflexivity.
Qed.

Lemma process_metrics_records_witness :
  Video.frame_count Video.tiny_video <> 0%nat /\
  Video.read_at Video.tiny_video 0 = Some Video.dark_frame /\
  (length (Audio.pcm Audio.four_samples)
   mod Audio.sampwidth Audio.four_samples = 0)%nat /\
  exists out,
    Pipeline.process_metrics 2 2 (Serializer.clock Serializer.example_clock)
      Video.tiny_video Audio.four_samples = Ok out /\
    length out = 18%nat.
Proof.
  assert (Hfc : Video.frame_count Video.tiny_video <> 0%nat) by discriminate.
  assert (Hread : Video.read_at Video.tiny_video 0 = Some Video.dark_frame)
    by reflexivity.
  assert (Hw : (Audio.sampwidth Audio.four_samples = 1
                \/ Audio.sampwidth Audio.four_samples = 2
                \/ Audio.sampwidth Audio.four_samples = 4)%nat)
    by (left; reflexivity).
  assert (Hdata : (length (Audio.pcm Audio.four_samples)
                   mod Audio.sampwidth Audio.four_samples = 0)%nat)
    by reflexivity.
  split; [exact Hfc|]. split; [exact Hread|]. split; [exact Hdata|].
  destruct (process_metrics_records 2 2
              (Serializer.clock Serializer.example_clock)
              Video.tiny_video Audio.four_samples Video.dark_frame
              Hfc Hread Hw Hdata) as (out & Hrun & Hfeat).
  exists out. split; [exact Hrun|].
  rewrite <- (length_map Serializer.feature out), Hfeat. reflexivity.
Defined.

(** X18. The metric part of [process] fails on a video without frames with
    the [ZeroDivisionError] of [amplitude], which runs before [contrast];
    on a video with frames whose first read fails it fails with the
    [AttributeError] of [contrast] once [amplitude] has returned, and
    nothing is written. *)
Theorem process_metrics_failures (height width : nat) (now : Q)
  (video : Video.FrameSource) (wav : Audio.AudioSource) :
  (Video.frame_count video = 0%nat ->
   Pipeline.process_metrics height width now video wav = Raise ZeroDivisionError) /\
  (returns (Audio.amplitude (Video.frame_count video) wav) ->
   Video.read_at video 0 = None ->
   Pipeline.process_metrics height width now video wav = Raise AttributeError).
Proof.
  unfold Pipeline.process_metrics. split.
  - intros ->. reflexivity.
  - intros [amp ->] Hread. cbn [bind].
    unfold Video.contrast, Video.read_at in *.
    destruct (Video.stream video) as [|[f|] s]; cbn [Video.read nth] in *;
      [reflexivity | discriminate | reflexivity].
Qed.

(** ** Playlist variation *)

Section PlaylistFacts.

Import Playlist.

Variable random : nat -> Qc.

Lemma edit_note_fields (n : Note) (k : nat) :
  c (fst (edit_note random n k)) = c n /\
  absoluteDuration (fst (edit_note random n k)) = Some (fixed_duration n) /\
  (c n <> 2 -> c n <> 4 -> t (fst (edit_note random n k)) = t n).
Proof.
  unfold edit_note.
  destruct (Z.eqb_spec (c n) 2) as [H2|H2]; destruct (Z.eqb_spec (c n) 4) as [H4|H4];
    cbn [orb fst c absoluteDuration t]; repeat split; intros; congruence.
Qed.

Lemma fixed_duration_not_zero (n : Note) : fixed_duration n <> 0%Qc.
Proof.
  unfold fixed_duration, falsy.
  destruct (absoluteDuration n) as [q|]; [|discriminate].
  destruct (Qc_eq_dec q 0); [discriminate | assumption].
Qed.

Lemma edit_loop_nth (rest : list Note) :
  forall k i n, nth_error rest i = Some n ->
    exists k', nth_error (edit_loop random rest k) i
               = Some (fst (edit_note random n k')).
Proof.
  induction rest as [|m rest IH]; intros k [|i] n Hn; try discriminate;
    cbn [edit_loop]; destruct (edit_note random m k) as [m' k1] eqn:Hm.
  - injection Hn as ->. exists k. rewrite Hm. reflexivity.
  - cbn [nth_error] in *. apply IH. exact Hn.
Qed.

Lemma edit_loop_length (rest : list Note) :
  forall k, length (edit_loop random rest k) = length rest.
Proof.
  induction rest as [|m rest IH]; intros k; cbn [edit_loop]; [reflexivity|].
  destruct (edit_note random m k) as [m' k1]. cbn [length]. rewrite IH. reflexivity.
Qed.

End PlaylistFacts.

(** X19. [edit_playlist] raises [IndexError] on an empty playlist.
    Otherwise it keeps the number of notes and leaves the first note as it
    is; every later note keeps its instrument code, ends with a duration
    that is neither [null] nor zero (such a duration becomes 1, any other is
    kept), and keeps its start time unless its code is 2 or 4. *)
Theorem edit_playlist_structure (random : nat -> Qc) :
  Playlist.edit_playlist random [] = Raise IndexError /\
  forall first rest,
    exists rest',
      Playlist.edit_playlist random (first :: rest) = Ok (first :: rest') /\
      length rest' = length rest /\
      forall i n, nth_error rest i = Some n ->
        exists n',
          nth_error rest' i = Some n' /\
          Playlist.c n' = Playlist.c n /\
          Playlist.absoluteDuration n' = Some (Playlist.fixed_duration n) /\
          Playlist.fixed_duration n <> 0%Qc /\
          (Playlist.falsy (Playlist.absoluteDuration n) = false ->
           Playlist.absoluteDuration n' = Playlist.absoluteDuration n) /\
          (Playlist.c n <> 2 -> Playlist.c n <> 4 ->
           Playlist.t n' = Playlist.t n).
Proof.
  split; [reflexivity|].
  intros first rest. exists (Playlist.edit_loop random rest 0).
  split; [reflexivity|]. split; [apply edit_loop_length|].
  intros i n Hn.
  destruct (edit_loop_nth random rest 0 i n Hn) as [k Hk].
  exists (fst (Playlist.edit_note random n k)). split; [exact Hk|].
  destruct (edit_note_fields random n k) as (Hc & Hd & Ht).
  split; [exact Hc|]. split; [exact Hd|].
  split; [apply fixed_duration_not_zero|]. split; [|exact Ht].
  intros Hfalsy. rewrite Hd. unfold Playlist.fixed_duration.
  destruct (Playlist.absoluteDuration n) as [q|]; [|discriminate].
  rewrite Hfalsy. reflexivity.
Qed.

(** The start time is moved in floats: next to [2 ^ 52], where the spacing
    of binary64 is 1, a shift of 0.35 is lost in the rounding. *)
Example edit_note_rounds_start :
  Playlist.t
    (fst (Playlist.edit_note (fun _ => Q2Qc (1 # 2))
            (Playlist.mkNote (Some (of_Z 1)) 2 (of_Z (2 ^ 52))) 0))
  = of_Z (2 ^ 52).
Proof. apply Qc_is_canon. vm_compute. reflexivity. Qed.
